(** * Slackard: a shallow embedding of [slackard.py]

    The bot polls a messaging service, tags and flattens the fetched
    messages, and hands every message to the registered plugin handlers.
    This file embeds the channel registry, the fetcher, the dispatch loop
    and the registration decorators of [class Slackard], and states the
    properties of the specification over them.

    Conventions of the embedding.
    - A Python [dict] with string keys whose enumeration order plays no
      role is a [gmap string _]; [self.channels], whose [keys()] and
      [values()] are iterated, is an association list in enumeration order.
    - A raised exception is a value [Raise e] of the [result] monad; the
      exception carries its class and its [message].
    - The client library [slacker] and the module [re] are outside the
      file: the service is a record of functions held by the bot, and the
      compiler of regular expressions is a Section variable.
    - A plugin handler is opaque; the embedding records every call the
      loop issues, with its arguments, in the order the calls are made,
      and takes a call to return: the loop catches nothing around a
      handler, so an exception raised inside one ends [run] there.
    - Sleeping and the clock of [run] are left out. *)

From Stdlib Require Import ZArith String Ascii List Bool Lia OrderedTypeEx.
From stdpp Require Import base option list gmap strings sorting.

Local Open Scope string_scope.
Local Open Scope list_scope.

(** ** Exceptions and the result monad *)

Inductive exn_class :=
| SlackardFatalError
| SlackardNonFatalError
| SlackerError          (* slacker.Error: the service answered "not ok" *)
| AssertionError
| KeyError
| AttributeError
| TypeError
| OtherException.       (* any other subclass of Exception *)

Global Instance exn_class_eq_dec : EqDecision exn_class.
Proof. solve_decision. Defined.

Record exn := Exn { cls : exn_class; message_of : string }.

Global Instance exn_eq_dec : EqDecision exn.
Proof. solve_decision. Defined.

Inductive result (A : Type) :=
| Ok (a : A)
| Raise (e : exn).
Arguments Ok {A} a.
Arguments Raise {A} e.

Global Instance result_ret : MRet result := fun A a => Ok a.
Global Instance result_bind : MBind result :=
  fun A B f r => match r with Ok a => f a | Raise e => Raise e end.

(** ** Messages and the service *)

(** A message is the JSON object of the service: a dictionary of fields.
    The fields the bot reads or writes (['ts'], ['text'], ['subtype'],
    ['username'], ['chan_id'], ['channel']) hold strings. *)
Abbreviation message := (gmap string string).

(** [h.successful] and [h.body['messages']] of a history response. *)
Record response := Response {
  successful : bool;
  body_messages : list message
}.

(** The calls made on [self.slack]: [channels.list()], whose body lists
    (name, id) pairs, and [channels.history(channel, oldest=...)]. *)
Record service := Service {
  channels_list : result (list (string * string));
  channels_history : string -> option string -> result response
}.

(** ** The bot object *)

(** [self.channels] maps names to IDs; [self.chan_ids] maps IDs to names.
    Between [__init__] and the first [_init_connection] the values of
    [self.channels] are [None]; every method below runs after
    [_init_connection], which reads the keys only. *)
Record bot := Bot {
  botname : string;
  botnick : string;
  channels : list (string * string);
  chan_ids : gmap string string;
  slack : service
}.

(** [d[k]] and [k in d] on the association list. *)
Fixpoint dict_get (d : list (string * string)) (k : string) : option string :=
  match d with
  | [] => None
  | (k', v) :: d' => if decide (k' = k) then Some v else dict_get d' k
  end.

Definition dict_keys (d : list (string * string)) : list string := fst <$> d.
Definition dict_values (d : list (string * string)) : list string := snd <$> d.

(** [d[k]] raising [KeyError]. *)
Definition getitem (d : gmap string string) (k : string) : result string :=
  match d !! k with
  | Some v => Ok v
  | None => Raise (Exn KeyError k)
  end.

(** ** [_init_connection] *)

(** [{c['name']: c['id'] for c in r.body['channels']}]: a later entry
    replaces an earlier one with the same name. *)
Definition c_map_of (l : list (string * string)) : gmap string string :=
  foldl (fun m c => <[fst c := snd c]> m) ∅ l.

(** The loop [for x in self.channels]: each key gets its ID, and the ID
    is recorded in [chan_ids]. *)
Fixpoint init_loop (c_map : gmap string string) (keys : list string)
    (chans : list (string * string)) (ids : gmap string string)
    : result (list (string * string) * gmap string string) :=
  match keys with
  | [] => Ok (chans, ids)
  | x :: keys' =>
      i ← getitem c_map x;
      init_loop c_map keys' (chans ++ [(x, i)]) (<[i := x]> ids)
  end.

Definition _init_connection (self : bot) : result bot :=
  match channels_list (slack self) with
  | Raise (Exn SlackerError msg) =>
      if decide (msg = "invalid_auth")
      then Raise (Exn SlackardFatalError "Invalid API key")
      else Raise (Exn SlackerError msg)
  | Raise (Exn _ msg) => Raise (Exn SlackardNonFatalError msg)
  | Ok chans =>
      '(channels', chan_ids') ←
        init_loop (c_map_of chans) (dict_keys (channels self)) [] ∅;
      Ok (Bot (botname self) (botnick self) channels' chan_ids' (slack self))
  end.

(** ** [_fetch_messages_since] *)

(** The inner loop over [range(len(messages))]. *)
Definition tag_message (self : bot) (channel : string) (m : message)
    : result message :=
  name ← getitem (chan_ids self) channel;
  Ok (<["channel" := name]> (<["chan_id" := channel]> m)).

Fixpoint fetch_loop (self : bot) (oldest : option string)
    (chans : list string) (all_messages : list message)
    : result (list message) :=
  match chans with
  | [] => Ok all_messages
  | channel :: chans' =>
      h ← channels_history (slack self) channel oldest;
      if successful h then
        messages ← mapM (tag_message self channel) (body_messages h);
        fetch_loop self oldest chans' (all_messages ++ reverse messages)
      else Raise (Exn AssertionError "")
  end.

(** [m['ts'] != oldest]; a timestamp never equals [None]. *)
Definition ts_differs (oldest : option string) (m : message) : result bool :=
  t ← getitem m "ts";
  Ok (bool_decide (Some t ≠ oldest)).

Fixpoint filterM {A : Type} (p : A -> result bool) (l : list A)
    : result (list A) :=
  match l with
  | [] => Ok []
  | x :: l' =>
      b ← p x;
      r ← filterM p l';
      Ok (if b : bool then x :: r else r)
  end.

Definition _fetch_messages_since (self : bot) (oldest : option string)
    : result (list message) :=
  all_messages ← fetch_loop self oldest (dict_values (channels self)) [];
  filterM (ts_differs oldest) all_messages.

(** ** [_resolve_channels] *)

(** The [channels] argument: [None], one string, or a list of strings. *)
Inductive selector :=
| SelNone
| SelStr (s : string)
| SelList (l : list string).

(** The text of the error: the channel between double quotes, then
    [is an unknown channel]. *)
Definition unknown_channel (channel : string) : string :=
  let quote := String "034"%char EmptyString in
  String.append quote
    (String.append channel (String.append quote " is an unknown channel")).

Fixpoint resolve_loop (self : bot) (chans : list string) (acc : list string)
    : result (list string) :=
  match chans with
  | [] => Ok acc
  | channel :: chans' =>
      if decide (is_Some (chan_ids self !! channel)) then
        resolve_loop self chans' (acc ++ [channel])
      else
        match dict_get (channels self) channel with
        | Some i => resolve_loop self chans' (acc ++ [i])
        | None => Raise (Exn AssertionError (unknown_channel channel))
        end
  end.

(** [tuple(set(result))]: the distinct elements, in the order the set
    enumerates them. *)
Definition tuple_of_set (l : list string) : list string :=
  elements (list_to_set l : gset string).

Definition _resolve_channels (self : bot) (chans : selector)
    : result (list string) :=
  let chans :=
    match chans with
    | SelNone => dict_keys (channels self)
    | SelStr s => [s]
    | SelList l => l
    end in
  r ← resolve_loop self chans [];
  Ok (tuple_of_set r).

(** ** Handlers, the registry and the recorded effects *)

(** A callable is a function of a plugin, named, or the closure [_f] that
    a decorator builds around a callable. *)
Inductive callable :=
| Plugin (name : string)
| Wrapper (wrapped : callable).

Global Instance callable_eq_dec : EqDecision callable.
Proof. solve_decision. Defined.

(** [_f] passes all its arguments on to [wrapped] and returns what it
    returns: calling a wrapper calls the function at its core with the
    same arguments. *)
Fixpoint target (f : callable) : string :=
  match f with
  | Plugin name => name
  | Wrapper wrapped => target wrapped
  end.

Inductive pyval :=
| PStr (s : string)
| PInt (n : Z)
| PFn (f : callable).

Global Instance pyval_eq_dec : EqDecision pyval.
Proof. solve_decision. Defined.

(** [hasattr(v, '__call__')]. *)
Definition is_callable (v : pyval) : bool :=
  match v with PFn _ => true | _ => false end.

Inductive arg :=
| AMessage (m : message)
| AStr (s : string).

Global Instance arg_eq_dec : EqDecision arg.
Proof. solve_decision. Defined.

(** What the bot does to the outside, in order: lines printed, plugin
    functions called, files sent to the service. *)
Inductive event :=
| PrintMessage (m : message)
| PrintFailedMatcher (wrapped : callable)
| Invoke (f : string) (args : list arg)
| FilesUpload (file_ : string) (chans : list string)
    (filename : option string) (title : string).

Global Instance event_eq_dec : EqDecision event.
Proof. solve_decision. Defined.

Definition invoke (f : callable) (args : list arg) : event :=
  Invoke (target f) args.

(** A compiled pattern object, known by its [search]. *)
Record matcher := Matcher { search : string -> bool }.

(** The class attributes [subscribers], [commands] and [firehoses]. *)
Record registry := Registry {
  subscribers : list (callable * matcher);
  commands : list (callable * pyval);
  firehoses : list callable
}.

(** ** The command matcher

    The pattern of [run]: at the start of the text the nickname (pasted
    in by [format]) and a colon, any spaces, a first group of one or more
    non-space characters, any spaces, and a second group of any
    characters; compiled with [re.IGNORECASE], applied with [match]. The
    nickname is pasted as it is; the functions below are the matcher for
    a nickname made of characters that stand for themselves in a pattern
    ([regex_literal]). *)

Definition special_chars : list ascii :=
  list_ascii_of_string ".^$*+?{}[]\|()".

Fixpoint string_forallb (p : ascii -> bool) (s : string) : bool :=
  match s with
  | EmptyString => true
  | String c s' => p c && string_forallb p s'
  end.

Definition regex_literal (s : string) : bool :=
  string_forallb (fun c => bool_decide (c ∉ special_chars)) s.

(** [\s] on byte strings: space, tab, newline, vertical tab, form feed,
    carriage return. *)
Definition is_space (c : ascii) : bool :=
  let n := nat_of_ascii c in
  Nat.eqb n 32 || (Nat.leb 9 n && Nat.leb n 13).

(** Lower-casing of [re.IGNORECASE] on byte strings. *)
Definition lower (c : ascii) : ascii :=
  let n := nat_of_ascii c in
  if Nat.leb 65 n && Nat.leb n 90 then ascii_of_nat (n + 32) else c.

(** The literal prefix, compared without case; the rest of the text. *)
Fixpoint strip_prefix_ci (p s : string) : option string :=
  match p, s with
  | EmptyString, _ => Some s
  | String a p', String b s' =>
      if decide (lower a = lower b) then strip_prefix_ci p' s' else None
  | String _ _, EmptyString => None
  end.

(** The greedy run of spaces, "\s*". *)
Fixpoint skip_spaces (s : string) : string :=
  match s with
  | EmptyString => EmptyString
  | String c s' => if is_space c then skip_spaces s' else s
  end.

(** The greedy run of non-space characters, "\S+" when it is not empty,
    and what follows it. *)
Fixpoint span_nonspace (s : string) : string * string :=
  match s with
  | EmptyString => (EmptyString, EmptyString)
  | String c s' =>
      if is_space c then (EmptyString, s)
      else let '(w, r) := span_nonspace s' in (String c w, r)
  end.

(** The greedy ".*": up to the first newline. *)
Fixpoint line_prefix (s : string) : string :=
  match s with
  | EmptyString => EmptyString
  | String c s' =>
      if decide (c = "010"%char) then EmptyString
      else String c (line_prefix s')
  end.

(** [cmd_matcher.match(text)] and [m.groups()]. The first run of spaces
    gives nothing back to the command group, which matches no space and
    needs one character; the last two parts match whatever follows. *)
Definition cmd_match (nick text : string) : option (string * string) :=
  match strip_prefix_ci nick text with
  | Some (String ":" rest) =>
      match span_nonspace (skip_spaces rest) with
      | (EmptyString, _) => None
      | (cmd, rest') => Some (cmd, line_prefix (skip_spaces rest'))
      end
  | _ => None
  end.

(** ** The message loop of [run] *)

(** The test of a self-produced message. A missing ['subtype'] or
    ['username'] raises [KeyError], which the loop passes over. *)
Definition self_produced (self : bot) (message : message) : bool :=
  match message !! "subtype" with
  | Some subtype =>
      if decide (subtype = "bot_message") then
        match message !! "username" with
        | Some username => bool_decide (username = botname self)
        | None => false
        end
      else false
  | None => false
  end.

(** [for f in self.firehoses: f(message)]. *)
Definition firehose_loop (message : message) (fs : list callable)
    (out : list event) : list event :=
  foldl (fun out f => out ++ [invoke f [AMessage message]]) out fs.

(** [for (f, matcher) in self.subscribers]. *)
Definition subscriber_loop (message : message) (text : string)
    (subs : list (callable * matcher)) (out : list event) : list event :=
  foldl (fun out s =>
           if search (snd s) text
           then out ++ [invoke (fst s) [AMessage message]]
           else out) out subs.

(** [for (f, command) in self.commands]. *)
Definition command_loop (message : message) (cmd args : string)
    (cmds : list (callable * pyval)) (out : list event) : list event :=
  foldl (fun out c =>
           if decide (snd c = PStr cmd)
           then out ++ [invoke (fst c) [AStr args; AMessage message]]
           else out) out cmds.

(** The body of [for message in messages], after [ts = message['ts']]. *)
Definition dispatch (self : bot) (reg : registry) (message : message)
    (out : list event) : list event :=
  match message !! "text" with
  | None => out
  | Some text =>
      if self_produced self message then out
      else
        let out := out ++ [PrintMessage message] in
        let out := firehose_loop message (firehoses reg) out in
        let out := subscriber_loop message text (subscribers reg) out in
        match cmd_match (botnick self) text with
        | Some (cmd, args) =>
            command_loop message cmd args (commands reg) out
        | None => out
        end
  end.

Fixpoint foldlM {A B : Type} (f : A -> B -> result A) (a : A) (l : list B)
    : result A :=
  match l with
  | [] => Ok a
  | x :: l' => a' ← f a x; foldlM f a' l'
  end.

Definition run_body (self : bot) (reg : registry)
    (st : string * list event) (message : message)
    : result (string * list event) :=
  ts ← getitem message "ts";
  Ok (ts, dispatch self reg message (snd st)).

(** One turn of [while True], the sleep left out: the fetch with the
    watermark [ts], then the loop over the messages. The result is the
    watermark of the next turn and the effects so far. *)
Definition run_cycle (self : bot) (reg : registry) (ts : string)
    (out : list event) : result (string * list event) :=
  match _fetch_messages_since self (Some ts) with
  | Raise e => Raise (Exn SlackardNonFatalError (message_of e))
  | Ok messages => foldlM (run_body self reg) (ts, out) messages
  end.

(** [max] on a list of strings, which Python compares byte by byte. *)
Definition str_max (a b : string) : string :=
  if String.ltb a b then b else a.

Definition max_ts (l : list string) : option string :=
  match l with
  | [] => None
  | t :: l' => Some (foldl str_max t l')
  end.

(** The ['ts'] fields of a list of messages. *)
Definition timestamps (l : list message) : list string :=
  omap (fun m : message => m !! "ts") l.

(** ** The handlers of [main] *)

Inductive disposition :=
| SysExit (code : Z)
| DelayAndReconnect.

(** The [except] clauses around [bot.run()]. *)
Definition main_except (e : exn) : disposition :=
  match cls e with
  | SlackardFatalError => SysExit 1
  | SlackardNonFatalError => DelayAndReconnect
  | _ => SysExit 1
  end.

(** ** Registration *)

(** The registry and what has been printed. *)
Record world := World {
  registered : registry;
  output : list event
}.

Definition add_subscriber (s : callable * matcher) (w : world) : world :=
  let r := registered w in
  World (Registry (subscribers r ++ [s]) (commands r) (firehoses r))
        (output w).

Definition add_command (c : callable * pyval) (w : world) : world :=
  let r := registered w in
  World (Registry (subscribers r) (commands r ++ [c]) (firehoses r))
        (output w).

Definition add_firehose (f : callable) (w : world) : world :=
  let r := registered w in
  World (Registry (subscribers r) (commands r) (firehoses r ++ [f]))
        (output w).

Definition print (e : event) (w : world) : world :=
  World (registered w) (output w ++ [e]).

(** What a decorator is: applied to the decorated function, it changes
    the world and returns the function that replaces it. *)
Definition decorator : Type := callable -> world -> world * result callable.

Section Registration.

(** [re.compile(pattern, re.IGNORECASE)] on a string: the pattern
    object, or nothing when the pattern is not a regular expression. *)
Variable re_compile : string -> option matcher.

(** [re.compile] refuses what is neither a string nor a pattern. *)
Definition compile (pattern : pyval) : result matcher :=
  match pattern with
  | PStr s =>
      match re_compile s with
      | Some m => Ok m
      | None => Raise (Exn OtherException "re.error")
      end
  | _ => Raise (Exn TypeError "first argument must be string or compiled pattern")
  end.

(** The bare [except] catches whatever [re.compile] raises. *)
Definition real_subscribe (pattern : pyval) : decorator :=
  fun wrapped w =>
    let _f := Wrapper wrapped in
    match compile pattern with
    | Ok m => (add_subscriber (_f, m) w, Ok _f)
    | Raise _ => (print (PrintFailedMatcher wrapped) w, Ok _f)
    end.

Definition subscribe (pattern : pyval) (w : world)
    : world * result decorator :=
  if is_callable pattern
  then (w, Raise (Exn TypeError "Must supply pattern string"))
  else (w, Ok (real_subscribe pattern)).

End Registration.

Definition real_command (command : pyval) : decorator :=
  fun wrapped w =>
    let _f := Wrapper wrapped in
    (add_command (_f, command) w, Ok _f).

Definition command (command : pyval) (w : world) : world * result decorator :=
  if is_callable command
  then (w, Raise (Exn TypeError "Must supply command string"))
  else (w, Ok (real_command command)).

Definition firehose : decorator :=
  fun wrapped w =>
    let _f := Wrapper wrapped in
    (add_firehose _f w, Ok _f).

(** ** [upload] and the attributes of the bot *)

(** An attribute of a [Slackard] object: the method that resolves a
    channel selector, or any other attribute. *)
Inductive attribute :=
| ResolveMethod (f : bot -> selector -> result (list string))
| OtherAttribute.

(** The names defined by [class Slackard] and by [__init__] and
    [_init_connection] on the instance. The attributes inherited from
    [object] have names with two underscores on each side. *)
Definition slackard_attributes : list (string * attribute) :=
  [ ("subscribers", OtherAttribute); ("commands", OtherAttribute);
    ("firehoses", OtherAttribute); ("__init__", OtherAttribute);
    ("__str__", OtherAttribute); ("_import_plugins", OtherAttribute);
    ("_get_plugin_path", OtherAttribute);
    ("_set_import_path", OtherAttribute);
    ("_init_connection", OtherAttribute);
    ("_fetch_messages_since", OtherAttribute);
    ("_resolve_channels", ResolveMethod _resolve_channels);
    ("speak", OtherAttribute); ("upload", OtherAttribute);
    ("set_topic", OtherAttribute); ("channel_info", OtherAttribute);
    ("run", OtherAttribute); ("subscribe", OtherAttribute);
    ("command", OtherAttribute); ("firehose", OtherAttribute);
    ("config", OtherAttribute); ("apikey", OtherAttribute);
    ("botname", OtherAttribute); ("botnick", OtherAttribute);
    ("channels", OtherAttribute); ("chan_ids", OtherAttribute);
    ("plugins", OtherAttribute); ("boticon", OtherAttribute);
    ("botemoji", OtherAttribute); ("slack", OtherAttribute) ].

Fixpoint assoc {A : Type} (l : list (string * A)) (k : string) : option A :=
  match l with
  | [] => None
  | (k', v) :: l' => if decide (k' = k) then Some v else assoc l' k
  end.

(** [self.name]. *)
Definition getattr (name : string) : result attribute :=
  match assoc slackard_attributes name with
  | Some a => Ok a
  | None =>
      Raise (Exn AttributeError
               (String.append "'Slackard' object has no attribute '"
                  (String.append name "'")))
  end.

(** The call [a(channel)] of an attribute with one argument. *)
Definition call_attribute (a : attribute) (self : bot) (channel : selector)
    : result (list string) :=
  match a with
  | ResolveMethod f => f self channel
  | OtherAttribute => Raise (Exn TypeError "")
  end.

(** [for chan in channel]: a name is replaced by its ID, and the ID is
    asserted to be known. *)
Fixpoint upload_check (self : bot) (channel : list string) : result unit :=
  match channel with
  | [] => Ok ()
  | chan :: channel' =>
      let chan :=
        match dict_get (channels self) chan with
        | Some i => i
        | None => chan
        end in
      if decide (is_Some (chan_ids self !! chan))
      then upload_check self channel'
      else Raise (Exn AssertionError "")
  end.

(** The title: with no title given, the only placeholder of the format
    string is filled with the title itself, [None]. *)
Definition upload_title (self : bot) (title : option string) : string :=
  match title with
  | None => "(Upload by None)"
  | Some t =>
      String.append t
        (String.append " (Upload by " (String.append (botname self) ")"))
  end.

Definition upload (self : bot) (file_ : string)
    (filename title : option string) (channel : selector)
    (out : list event) : result (list event) :=
  resolve ← getattr "resolve_channels";
  channel ← call_attribute resolve self channel;
  let title := upload_title self title in
  _ ← upload_check self channel;
  Ok (out ++ [FilesUpload file_ channel filename title]).

(** ** Notions used in the statements *)

(** The message as [_fetch_messages_since] leaves it. *)
Definition tagged (channel name : string) (m : message) : message :=
  <["channel" := name]> (<["chan_id" := channel]> m).

(** The name under which [chan_ids] knows a channel ID. *)
Definition name_of (self : bot) (channel : string) : string :=
  default EmptyString (chan_ids self !! channel).

(** What one channel contributes: its batch, tagged, oldest first. *)
Definition segment (self : bot) (batch : string -> list message)
    (channel : string) : list message :=
  reverse (tagged channel (name_of self channel) <$> batch channel).

(** [a] is older than [b]: both carry a timestamp, and that of [a] is
    the smaller string. *)
Definition ts_lt (a b : message) : Prop :=
  ∃ ta tb, a !! "ts" = Some ta ∧ b !! "ts" = Some tb ∧ String.ltb ta tb = true.

(** The messages of a fetch that the final comprehension keeps. *)
Definition fresh (oldest : option string) (m : message) : Prop :=
  m !! "ts" ≠ oldest.

Global Instance fresh_dec oldest m : Decision (fresh oldest m).
Proof. unfold fresh. apply _. Defined.

(** ** A deployment with two channels

    The channels [general] and [random], a service that keeps the
    messages of each channel newest first and answers a history request
    with those whose timestamp is not below [oldest], and three plugin
    functions. *)

Definition msg (ts text : string) : message :=
  {[ "ts" := ts; "text" := text ]}.

Definition not_older (oldest : option string) (m : message) : bool :=
  match oldest, m !! "ts" with
  | Some o, Some t => String.leb o t
  | _, _ => true
  end.

Definition stored (store : list (string * list message)) (c : string)
    : list message :=
  default [] (assoc store c).

Definition store_service (names : list (string * string))
    (store : list (string * list message)) : service :=
  Service (Ok names)
    (fun c oldest =>
       Ok (Response true (List.filter (not_older oldest) (stored store c)))).

Definition ex_names : list (string * string) :=
  [("general", "C1"); ("random", "C2")].

Definition ex_store : list (string * list message) :=
  [("C1", [msg "200" "Hello there"; msg "100" "seen"]);
   ("C2", [msg "150" "slack: ping extra args"])].

Definition ex_service : service := store_service ex_names ex_store.

(** The bot after [_init_connection]. *)
Definition ex_bot : bot :=
  Bot "Slackard" "slack" ex_names
      {[ "C1" := "general"; "C2" := "random" ]} ex_service.

(** What the service answers for the watermark ["100"]. *)
Definition ex_batch (c : string) : list message :=
  List.filter (not_older (Some "100")) (stored ex_store c).

(** A pattern object for a pattern without special characters: the
    pattern occurs somewhere in the text, case ignored. *)
Fixpoint contains_ci (p s : string) : bool :=
  bool_decide (is_Some (strip_prefix_ci p s))
  || match s with
     | EmptyString => false
     | String _ s' => contains_ci p s'
     end.

Definition literal_matcher (p : string) : matcher := Matcher (contains_ci p).

Definition ex_registry : registry :=
  Registry [(Wrapper (Plugin "greet"), literal_matcher "hello")]
           [(Wrapper (Plugin "pong"), PStr "ping")]
           [Wrapper (Plugin "log")].


(** The calls of the three loops, as lists: one call for each firehose,
    for each subscription whose pattern is found in the text, and for
    each command registered under the parsed name, in the order of the
    registry. *)
Definition firehose_calls (message : message) (fs : list callable)
    : list event :=
  (fun f => invoke f [AMessage message]) <$> fs.

Definition subscriber_calls (message : message) (text : string)
    (subs : list (callable * matcher)) : list event :=
  (fun s => invoke (fst s) [AMessage message])
    <$> filter (fun s => search (snd s) text = true) subs.

Definition command_calls (message : message) (cmd args : string)
    (cmds : list (callable * pyval)) : list event :=
  (fun c => invoke (fst c) [AStr args; AMessage message])
    <$> filter (fun c => snd c = PStr cmd) cmds.

Definition parsed_command_calls (nick : string) (message : message)
    (text : string) (cmds : list (callable * pyval)) : list event :=
  match cmd_match nick text with
  | Some (cmd, args) => command_calls message cmd args cmds
  | None => []
  end.

(** Everything one message adds to the effects. *)
Definition delivered (self : bot) (reg : registry) (message : message)
    : list event :=
  match message !! "text" with
  | None => []
  | Some text =>
      if self_produced self message then []
      else
        PrintMessage message
        :: firehose_calls message (firehoses reg)
        ++ subscriber_calls message text (subscribers reg)
        ++ parsed_command_calls (botnick self) message text (commands reg)
  end.

(** The messages an event shows to the outside. *)
Definition arg_message (a : arg) : option message :=
  match a with AMessage m => Some m | AStr _ => None end.

Definition event_messages (e : event) : list message :=
  match e with
  | PrintMessage m => [m]
  | Invoke _ args => omap arg_message args
  | PrintFailedMatcher _ => []
  | FilesUpload _ _ _ _ => []
  end.

(** How many times an event occurs. *)
Definition occurrences (e : event) (l : list event) : nat :=
  length (filter (fun e' => e' = e) l).


(** A message the bot posted itself. *)
Definition ex_own_message : message :=
  {[ "ts" := "250"; "text" := "slack: ping extra args";
     "subtype" := "bot_message"; "username" := "Slackard" ]}.

(** The two channels enumerated the other way round, the service
    holding the newer message in [random]. *)
Definition ex_store_swapped : list (string * list message) :=
  [("C1", [msg "150" "Hello there"]);
   ("C2", [msg "200" "slack: ping extra args"; msg "100" "seen"])].

Definition ex_bot_swapped : bot :=
  Bot "Slackard" "slack" [("random", "C2"); ("general", "C1")]
      {[ "C1" := "general"; "C2" := "random" ]}
      (store_service ex_names ex_store_swapped).


(** A compiler for the examples: a pattern with a special character is
    refused, any other pattern is looked for as it is. *)
Definition literal_compile (p : string) : option matcher :=
  if regex_literal p then Some (literal_matcher p) else None.

(** A service that answers the listing with the error [msg]. *)
Definition failing_service (e : exn) : service :=
  Service (Raise e) (fun _ _ => Raise e).

Definition ex_bot_with (s : service) : bot :=
  Bot "Slackard" "slack" ex_names ∅ s.


(** What one identifier resolves to: itself when it is a known ID,
    else the ID of the channel of that name. *)
Definition resolve_one (self : bot) (channel : string) : option string :=
  if decide (is_Some (chan_ids self !! channel)) then Some channel
  else dict_get (channels self) channel.

(** The bot before the connection, with the configured names only. *)
Definition ex_bot_configured : bot :=
  Bot "Slackard" "slack" [("general", ""); ("random", "")] ∅ ex_service.


(** The text in lower case, as [re.IGNORECASE] compares it. *)
Fixpoint lower_string (s : string) : string :=
  match s with
  | EmptyString => EmptyString
  | String c s' => String (lower c) (lower_string s')
  end.

Definition all_spaces (s : string) : bool := string_forallb is_space s.

Definition no_space (s : string) : bool :=
  string_forallb (fun c => negb (is_space c)) s.

(** The text is over, or goes on with a space. *)
Definition ends_word (rest : string) : bool :=
  match rest with
  | EmptyString => true
  | String c _ => is_space c
  end.

(** The form of a command: the nickname in any case, a colon, spaces,
    then the command, a non-empty run of non-space characters that the
    end of the text or a space follows. *)
Definition command_form (nick text cmd : string) : Prop :=
  ∃ n ws rest,
    text = n +:+ ":" +:+ ws +:+ cmd +:+ rest
    ∧ lower_string n = lower_string nick
    ∧ all_spaces ws = true
    ∧ cmd ≠ EmptyString
    ∧ no_space cmd = true
    ∧ ends_word rest = true.


(** Case analysis on the membership [H] in a list given in full. *)
Ltac each_member H :=
  repeat (apply elem_of_cons in H as [->|H]);
  try (apply elem_of_nil in H; destruct H).

(** ** Further fixtures *)

(** The configured bot facing a service that lists [general] only. *)
Definition ex_bot_missing_channel : bot :=
  Bot "Slackard" "slack" [("general", ""); ("random", "")] ∅
      (store_service [("general", "C1")] ex_store).


(** What the loop of [_init_connection] keeps true of the two maps it
    builds. *)
Definition maps_agree (c_map : gmap string string)
    (chans : list (string * string)) (ids : gmap string string) : Prop :=
  (∀ n i, (n, i) ∈ chans -> c_map !! n = Some i)
  ∧ (∀ i n, ids !! i = Some n -> (n, i) ∈ chans)
  ∧ (∀ n i, (n, i) ∈ chans -> is_Some (ids !! i)).

(** What the service answers [ex_bot] for the watermark ["200"]. *)
Definition ex_batch_200 (c : string) : list message :=
  List.filter (not_older (Some "200")) (stored ex_store c).

(** A channel that holds a message of the bot itself and, before it, a
    message without text. *)
Definition ex_bot_quiet : bot :=
  Bot "Slackard" "slack" [("general", "C1")] {[ "C1" := "general" ]}
      (store_service [("general", "C1")]
         [("C1", [ex_own_message;
                  {[ "ts" := "240"; "subtype" := "channel_join" ]}])]).


(** No newline in the text. *)
Definition no_newline (s : string) : bool :=
  string_forallb (fun c => negb (bool_decide (c = "010"%char))) s.

(** The text is empty or begins with something else than a space. *)
Definition starts_word (s : string) : bool :=
  match s with
  | EmptyString => true
  | String c _ => negb (is_space c)
  end.

(** The registry [r'] holds the registry [r] and what was registered
    since, after it. *)
Definition extends (r r' : registry) : Prop :=
  subscribers r `prefix_of` subscribers r'
  ∧ commands r `prefix_of` commands r'
  ∧ firehoses r `prefix_of` firehoses r'.

(** What one application of a decorator does: it returns the wrapper of
    the decorated function, adds at most one entry to the registry, after
    the others, and only adds to what was printed. *)
Definition registers_after (wrapped : callable) (w : world)
    (r : world * result callable) : Prop :=
  snd r = Ok (Wrapper wrapped)
  ∧ extends (registered w) (registered (fst r))
  ∧ output w `prefix_of` output (fst r)
  ∧ length (subscribers (registered (fst r)))
    + length (commands (registered (fst r)))
    + length (firehoses (registered (fst r)))
    <= 1 + length (subscribers (registered w))
       + length (commands (registered w))
       + length (firehoses (registered w)).


(** ** [speak], [set_topic] and [channel_info] *)

(** [self.boticon] and [self.botemoji], which [__init__] reads from the
    configuration; either may be [None]. *)
Record look := Look {
  boticon : option string;
  botemoji : option string
}.

(** The requests these methods send: [chat.post_message(channel,
    message, username=, icon_emoji=, icon_url=, attachments=)],
    [channels.set_topic(channel=, topic=)], [channels.info(channel=)]. *)
Inductive api_call :=
| ChatPostMessage (channel : string) (message : option string)
    (username : string) (icon_emoji icon_url attachments : option string)
| ChannelsSetTopic (channel topic : string)
| ChannelsInfo (channel : string).

(** The service on these requests: the body of the answer, a dictionary
    of objects, or the exception the client library raises. *)
Definition api : Type := api_call -> result (gmap string (gmap string string)).

(** The message between code fences; [format] writes [None] as text. *)
Definition fenced (message : option string) : string :=
  "```" +:+ default "None" message +:+ "```".

(** [for channel in channels]: with [paste] the message is put between
    fences anew at every turn. The requests sent are recorded in [sent],
    the failing one included. *)
Fixpoint speak_loop (answer : api) (self : bot) (lk : look) (paste : bool)
    (attachments : option string) (chans : list string)
    (message : option string) (sent : list api_call)
    : list api_call * result unit :=
  match chans with
  | [] => (sent, Ok ())
  | channel :: chans' =>
      let message := if paste then Some (fenced message) else message in
      let call :=
        ChatPostMessage channel message (botname self) (botemoji lk)
          (boticon lk) attachments in
      match answer call with
      | Ok _ => speak_loop answer self lk paste attachments chans' message
                  (sent ++ [call])
      | Raise e => (sent ++ [call], Raise e)
      end
  end.

Definition speak (answer : api) (self : bot) (lk : look)
    (message : option string) (paste : bool) (attachments : option string)
    (channel : selector) (sent : list api_call)
    : list api_call * result unit :=
  match _resolve_channels self channel with
  | Raise e => (sent, Raise e)
  | Ok chans =>
      speak_loop answer self lk paste attachments chans message sent
  end.

(** [channel[0]] after the test of [len(channel)]. *)
Definition only_channel (what : string) (chans : list string)
    : result string :=
  if decide (length chans ≠ 1) then
    Raise (Exn SlackardNonFatalError
             (what +:+ " only accepts 1 channel"))
  else
    match chans !! 0 with
    | Some c => Ok c
    | None => Raise (Exn OtherException "IndexError")
    end.

Definition set_topic (answer : api) (self : bot) (topic : string)
    (channel : selector) (sent : list api_call)
    : list api_call * result unit :=
  match _resolve_channels self channel ≫= only_channel "set_topic" with
  | Raise e => (sent, Raise e)
  | Ok c =>
      let call := ChannelsSetTopic c topic in
      (sent ++ [call], answer call ≫= fun _ => Ok ())
  end.

Definition channel_info (answer : api) (self : bot) (channel : selector)
    (sent : list api_call)
    : list api_call * result (gmap string string) :=
  match _resolve_channels self channel ≫= only_channel "channel_info" with
  | Raise e => (sent, Raise e)
  | Ok c =>
      let call := ChannelsInfo c in
      (sent ++ [call],
       info ← answer call;
       match info !! "channel" with
       | Some ch => Ok ch
       | None => Raise (Exn KeyError "channel")
       end)
  end.

(** The request [speak] sends to one channel. *)
Definition post (self : bot) (lk : look) (attachments : option string)
    (message : option string) (channel : string) : api_call :=
  ChatPostMessage channel message (botname self) (botemoji lk) (boticon lk)
    attachments.

(** The message after [n] turns of the loop of [speak] with [paste]. *)
Definition fences (n : nat) (message : option string) : option string :=
  Nat.iter n (fun m => Some (fenced m)) message.

(** A service that accepts every request. *)
Definition accepting : api := fun _ => Ok ∅.

Definition ex_look : look := Look None (Some ":boom:").


(** ** [__init__]: the configured channel names *)

(** [s.split(",")]. *)
Fixpoint split_comma (s : string) : list string :=
  match s with
  | EmptyString => [EmptyString]
  | String c s' =>
      if decide (c = ","%char) then EmptyString :: split_comma s'
      else
        match split_comma s' with
        | h :: t => String c h :: t
        | [] => [String c EmptyString]
        end
  end.

(** [",".join(l)]. *)
Fixpoint join_comma (l : list string) : string :=
  match l with
  | [] => EmptyString
  | [x] => x
  | x :: l' => x +:+ "," +:+ join_comma l'
  end.

(** [s.rstrip()] and [s.strip()]: the spaces of [is_space] taken off
    the end, and off both ends. *)
Fixpoint rstrip (s : string) : string :=
  match s with
  | EmptyString => EmptyString
  | String c s' =>
      match rstrip s' with
      | EmptyString => if is_space c then EmptyString else String c EmptyString
      | r => String c r
      end
  end.

Definition strip (s : string) : string := rstrip (skip_spaces s).

Definition no_comma (s : string) : bool :=
  string_forallb (fun c => negb (bool_decide (c = ","%char))) s.

(** [',' in s]. *)
Definition has_comma (s : string) : bool := negb (no_comma s).

(** The names [__init__] takes from the entry [channel]: with a comma
    the stripped pieces, without one the entry as it is. *)
Definition channel_names (channel : string) : list string :=
  if has_comma channel then strip <$> split_comma channel else [channel].

(** The keys of [dict.fromkeys(names)]: each name once. The order in
    which a dictionary of Python 2 enumerates them is not fixed. *)
Definition configured_keys (channel : string) : list string :=
  remove_dups (channel_names channel).

(** The text does not end with a space. *)
Fixpoint ends_nonspace (s : string) : bool :=
  match s with
  | EmptyString => true
  | String c EmptyString => negb (is_space c)
  | String _ s' => ends_nonspace s'
  end.


(** ** The start of [run]: the first watermark *)

(** What the comprehension of [run] takes from one answer: nothing when
    the answer is not successful, else the ['ts'] of the first message if
    it has one. [x.body['messages'][0]] raises [IndexError] on an empty
    list. *)
Definition newest_stamp (h : response) : result (option string) :=
  if successful h then
    match body_messages h with
    | [] => Raise (Exn OtherException "IndexError")
    | m :: _ => Ok (m !! "ts")
    end
  else Ok None.

(** The watermark [run] starts with: a timestamp, or the clock reading
    [t0] when the largest timestamp is the empty string. *)
Inductive watermark :=
| Stamp (ts : string)
| Clock.

(** Lines 209 to 217. [latest] is [channels.history(x, count=1)]; [max]
    of an empty list raises [ValueError]. *)
Definition first_watermark (latest : string -> result response) (self : bot)
    : result watermark :=
  h ← mapM latest (dict_values (channels self));
  stamps ← mapM newest_stamp h;
  match max_ts (omap id stamps) with
  | None => Raise (Exn OtherException "ValueError")
  | Some ts => Ok (if decide (ts = EmptyString) then Clock else Stamp ts)
  end.

(** The newest message of each channel of [ex_store]. *)
Definition ex_latest (c : string) : result response :=
  Ok (Response true (take 1 (stored ex_store c))).

(** ** [main]: one turn of its loop *)

(** How a turn of [while True] ends, [bot.run()] having raised [e]: the
    process exits, or the exception raised by [_init_connection] inside
    the handler leaves [main] uncaught, or the loop goes round with the
    bot connected again. *)
Inductive main_turn :=
| Exit (code : Z)
| Uncaught (e : exn)
| Again (self : bot).

Definition main_handle (self : bot) (e : exn) : main_turn :=
  match main_except e with
  | SysExit code => Exit code
  | DelayAndReconnect =>
      match _init_connection self with
      | Ok self' => Again self'
      | Raise e' => Uncaught e'
      end
  end.


(** ** The plugin directory

    [os.path.split], [os.path.dirname] and [os.path.join] are those of
    [posixpath]; [os.path.realpath], [glob] and [importlib.import_module]
    look at the file system and are parameters. *)

Definition is_slash (c : ascii) : bool := bool_decide (c = "/"%char).

(** [p[:i]] and [p[i:]] for [i = p.rfind('/') + 1]. *)
Fixpoint cut_last_slash (p : string) : string * string :=
  match p with
  | EmptyString => (EmptyString, EmptyString)
  | String c p' =>
      match cut_last_slash p' with
      | (EmptyString, t) =>
          if is_slash c then (String c EmptyString, t)
          else (EmptyString, String c t)
      | (h, t) => (String c h, t)
      end
  end.

(** [head.rstrip('/')]. *)
Fixpoint rstrip_slash (s : string) : string :=
  match s with
  | EmptyString => EmptyString
  | String c s' =>
      match rstrip_slash s' with
      | EmptyString => if is_slash c then EmptyString else String c EmptyString
      | r => String c r
      end
  end.

(** [os.path.split(p)]: the slashes at the end of the head are taken
    off, unless the head is made of slashes only. *)
Definition path_split (p : string) : string * string :=
  let '(head, tail) := cut_last_slash p in
  if string_forallb is_slash head then (head, tail)
  else (rstrip_slash head, tail).

Definition dirname (p : string) : string := fst (path_split p).
Definition basename (p : string) : string := snd (path_split p).

Definition ends_with_slash (s : string) : bool :=
  match cut_last_slash s with
  | (String _ _, EmptyString) => true
  | _ => false
  end.

(** [os.path.join(a, b)]. *)
Definition path_join (a b : string) : string :=
  match b with
  | String "/" _ => b
  | _ =>
      if decide (a = EmptyString) then b
      else if ends_with_slash a then a +:+ b
      else a +:+ "/" +:+ b
  end.

(** [self.plugins] and [self.config.file]. *)
Record plugin_config := PluginConfig {
  plugins : string;
  config_file : string
}.

Section Plugins.

Variable realpath : string -> string.

(** [path[0]] raises [IndexError] on the empty string. *)
Definition _get_plugin_path (cfg : plugin_config) : result string :=
  match plugins cfg with
  | EmptyString => Raise (Exn OtherException "IndexError")
  | String c _ =>
      if is_slash c then Ok (plugins cfg)
      else Ok (path_join (dirname (realpath (config_file cfg)))
                 (plugins cfg))
  end.

(** [sys.path] is the argument and the result. *)
Definition _set_import_path (cfg : plugin_config) (sys_path : list string)
    : result (list string) :=
  path ← _get_plugin_path cfg;
  let path := dirname path in
  if decide (path ∈ sys_path) then Ok sys_path else Ok (path :: sys_path).

End Plugins.

(** [name[:-3]]. *)
Definition drop_last3 (s : string) : string :=
  String.substring 0 (String.length s - 3) s.

(** The name under which a plugin file is imported. *)
Definition module_name (plugin_prefix plugin : string) : string :=
  plugin_prefix +:+ "." +:+ drop_last3 (basename plugin).

(** What loading has done: the world, where the plugins register, and
    the imports tried, each with the exception it raised when it did;
    the loader prints one line for each of these. *)
Record loader := Loader {
  loaded : world;
  imports : list (string * option exn)
}.

(** [importlib.import_module(name)]: the code of the module runs on the
    world, and may raise. *)
Definition importer : Type := string -> world -> world * result unit.

(** [for plugin in glob(...)], with its [try]. *)
Fixpoint import_loop (import_module : importer) (plugin_prefix : string)
    (files : list string) (st : loader) : loader :=
  match files with
  | [] => st
  | plugin :: files' =>
      let module := module_name plugin_prefix plugin in
      let '(w, r) := import_module module (loaded st) in
      let failure := match r with Ok _ => None | Raise e => Some e end in
      import_loop import_module plugin_prefix files'
        (Loader w (imports st ++ [(module, failure)]))
  end.

(** [_import_plugins]. The assignment of [bot] in the imported package
    changes nothing the embedding records. *)
Definition _import_plugins (realpath : string -> string)
    (glob : string -> list string) (import_module : importer)
    (cfg : plugin_config) (sys_path : list string) (w : world)
    : result (list string * loader) :=
  sys_path' ← _set_import_path realpath cfg sys_path;
  let plugin_prefix := basename (plugins cfg) in
  match import_module plugin_prefix w with
  | (_, Raise e) => Raise e
  | (w1, Ok _) =>
      path ← _get_plugin_path realpath cfg;
      Ok (sys_path',
          import_loop import_module plugin_prefix
            (glob (path +:+ "/[!_]*.py")) (Loader w1 []))
  end.

(** An importer for the examples: the module [myplugins.broken] raises,
    [myplugins.greet] registers a firehose, the others do nothing. *)
Definition ex_importer : importer :=
  fun name w =>
    if decide (name = "myplugins.broken")
    then (w, Raise (Exn OtherException "SyntaxError"))
    else if decide (name = "myplugins.greet")
    then (fst (firehose (Plugin "greet") w), Ok ())
    else (w, Ok ()).

Definition ex_plugin_config : plugin_config :=
  PluginConfig "./myplugins" "/etc/slackard/config.yaml".


Definition no_slash (s : string) : bool :=
  string_forallb (fun c => negb (is_slash c)) s.


(** The deployment with the channel [random] out of order: its history
    is answered without success. *)
Definition ex_bot_half_down : bot :=
  Bot "Slackard" "slack" ex_names {[ "C1" := "general"; "C2" := "random" ]}
      (Service (Ok ex_names)
         (fun c oldest =>
            if decide (c = "C2") then Ok (Response false [])
            else Ok (Response true (stored ex_store c)))).

(** * Properties *)

(** ** The result monad *)

Lemma bind_Ok {A B : Type} (f : A -> result B) (a : A) : Ok a ≫= f = f a.
Proof. reflexivity. Qed.

Lemma bind_Raise {A B : Type} (f : A -> result B) (e : exn) :
  Raise e ≫= f = Raise e.
Proof. reflexivity. Qed.

Lemma getitem_Some (d : gmap string string) (k v : string) :
  d !! k = Some v -> getitem d k = Ok v.
Proof. unfold getitem. intros ->. reflexivity. Qed.

Lemma filterM_total {A : Type} (p : A -> result bool) (q : A -> Prop)
    `{!∀ x, Decision (q x)} (l : list A) :
  (∀ x, x ∈ l -> p x = Ok (bool_decide (q x))) ->
  filterM p l = Ok (filter q l).
Proof.
  induction l as [|x l IH]; intros Hp; [reflexivity|].
  cbn [filterM]. rewrite (Hp x) by left. rewrite bind_Ok.
  rewrite IH by (intros y Hy; apply Hp; right; exact Hy).
  rewrite bind_Ok, filter_cons.
  destruct (decide (q x)) as [Hq|Hq].
  - rewrite bool_decide_eq_true_2 by exact Hq. reflexivity.
  - rewrite bool_decide_eq_false_2 by exact Hq. reflexivity.
Qed.

Lemma foldlM_app {A B : Type} (f : A -> B -> result A) (a : A)
    (l1 l2 : list B) :
  foldlM f a (l1 ++ l2) = foldlM f a l1 ≫= fun a' => foldlM f a' l2.
Proof.
  revert a. induction l1 as [|x l1 IH]; intros a; [reflexivity|].
  cbn [foldlM app]. destruct (f a x) as [a'|e]; [|reflexivity].
  rewrite !bind_Ok. apply IH.
Qed.

(** ** The fetcher *)

Lemma tagged_ts (channel name : string) (m : message) :
  tagged channel name m !! "ts" = m !! "ts".
Proof.
  unfold tagged. rewrite !lookup_insert_ne by discriminate. reflexivity.
Qed.

Lemma tagged_chan_id (channel name : string) (m : message) :
  tagged channel name m !! "chan_id" = Some channel.
Proof.
  unfold tagged. rewrite lookup_insert_ne by discriminate.
  apply lookup_insert_eq.
Qed.

Lemma tagged_channel (channel name : string) (m : message) :
  tagged channel name m !! "channel" = Some name.
Proof. unfold tagged. apply lookup_insert_eq. Qed.

Lemma tag_message_known (self : bot) (channel name : string) (m : message) :
  chan_ids self !! channel = Some name ->
  tag_message self channel m = Ok (tagged channel name m).
Proof.
  intros Hn. unfold tag_message. rewrite (getitem_Some _ _ _ Hn).
  reflexivity.
Qed.

Lemma mapM_tag (self : bot) (channel name : string) (ms : list message) :
  chan_ids self !! channel = Some name ->
  mapM (tag_message self channel) ms = Ok (tagged channel name <$> ms).
Proof.
  intros Hn. induction ms as [|m ms IH]; [reflexivity|].
  cbn [mapM]. rewrite (tag_message_known _ _ _ _ Hn), bind_Ok, IH.
  reflexivity.
Qed.

Lemma fetch_loop_total (self : bot) (oldest : option string)
    (batch : string -> list message) (chans : list string)
    (acc : list message) :
  (∀ c, c ∈ chans ->
        channels_history (slack self) c oldest
        = Ok (Response true (batch c))) ->
  (∀ c, c ∈ chans -> is_Some (chan_ids self !! c)) ->
  fetch_loop self oldest chans acc
  = Ok (acc ++ (chans ≫= segment self batch)).
Proof.
  revert acc. induction chans as [|c chans IH]; intros acc Hh Hi.
  - cbn. rewrite app_nil_r. reflexivity.
  - cbn [fetch_loop]. rewrite (Hh c) by left. rewrite bind_Ok. cbn [successful body_messages].
    destruct (Hi c ltac:(left)) as [name Hname].
    rewrite (mapM_tag _ _ _ _ Hname), bind_Ok.
    rewrite IH by (intros; first [apply Hh | apply Hi]; right; assumption).
    rewrite bind_cons, app_assoc. unfold segment at 2, name_of.
    rewrite Hname. reflexivity.
Qed.

Lemma ts_differs_fresh (oldest : option string) (m : message) :
  is_Some (m !! "ts") ->
  ts_differs oldest m = Ok (bool_decide (fresh oldest m)).
Proof.
  intros [t Ht]. unfold ts_differs.
  rewrite (getitem_Some _ _ _ Ht), bind_Ok. f_equal.
  apply bool_decide_ext. unfold fresh. rewrite Ht. reflexivity.
Qed.

Lemma filter_bind {A B : Type} (P : B -> Prop) `{!∀ x, Decision (P x)}
    (f : A -> list B) (l : list A) :
  filter P (l ≫= f) = l ≫= fun x => filter P (f x).
Proof.
  induction l as [|x l IH]; [reflexivity|].
  rewrite !bind_cons, filter_app, IH. reflexivity.
Qed.

Lemma ltb_irrefl (s : string) : String.ltb s s = false.
Proof.
  unfold String.ltb. pose proof (String.compare_antisym s s) as H.
  destruct (String.compare s s); [reflexivity|discriminate|reflexivity].
Qed.

Lemma StronglySorted_reverse {A : Type} (R : relation A) (l : list A) :
  StronglySorted R l -> StronglySorted (flip R) (reverse l).
Proof.
  induction 1 as [|x l Hl IH Hx]; [constructor|].
  rewrite reverse_cons. apply StronglySorted_app_2.
  - intros a b Ha Hb. apply list_elem_of_singleton in Hb as ->.
    rewrite elem_of_reverse in Ha. rewrite Forall_forall in Hx.
    apply Hx. exact Ha.
  - exact IH.
  - repeat constructor.
Qed.

Lemma StronglySorted_filter {A : Type} (R : relation A) (P : A -> Prop)
    `{!∀ x, Decision (P x)} (l : list A) :
  StronglySorted R l -> StronglySorted R (filter P l).
Proof.
  induction 1 as [|x l Hl IH Hx]; [constructor|].
  rewrite filter_cons. destruct (decide (P x)); [|exact IH].
  constructor; [exact IH|].
  rewrite Forall_forall in *. intros y Hy.
  apply list_elem_of_filter in Hy as [_ Hy]. apply Hx. exact Hy.
Qed.

Lemma segment_sorted (self : bot) (batch : string -> list message)
    (oldest : option string) (c : string) :
  StronglySorted (flip ts_lt) (batch c) ->
  StronglySorted ts_lt (filter (fresh oldest) (segment self batch c)).
Proof.
  intros Hs. apply StronglySorted_filter. unfold segment.
  apply (StronglySorted_reverse (flip ts_lt)).
  apply (StronglySorted_fmap _ (flip ts_lt) (flip ts_lt)); [|exact Hs].
  intros x y (ta & tb & Ha & Hb & Hlt). exists ta, tb.
  rewrite !tagged_ts. auto.
Qed.

(** Whenever the fetch returns, no returned message carries the
    watermark as its timestamp. *)
Lemma filterM_kept {A : Type} (p : A -> result bool) (l r : list A) (x : A) :
  filterM p l = Ok r -> x ∈ r -> p x = Ok true.
Proof.
  revert r. induction l as [|y l IH]; intros r H Hx.
  - injection H as <-. inversion Hx.
  - cbn [filterM] in H. destruct (p y) as [b|e] eqn:Hy; [|discriminate H].
    rewrite bind_Ok in H. destruct (filterM p l) as [r'|e]; [|discriminate H].
    rewrite bind_Ok in H. injection H as <-. destruct b.
    + apply elem_of_cons in Hx as [->|Hx]; [exact Hy|].
      apply (IH r' eq_refl Hx).
    + apply (IH r' eq_refl Hx).
Qed.

Lemma fetch_excludes_watermark (self : bot) (T : string)
    (res : list message) (m : message) :
  _fetch_messages_since self (Some T) = Ok res -> m ∈ res ->
  m !! "ts" ≠ Some T.
Proof.
  unfold _fetch_messages_since. intros H Hm.
  destruct (fetch_loop self (Some T) _ []) as [all_messages|e];
    [|discriminate H].
  rewrite bind_Ok in H. pose proof (filterM_kept _ _ _ _ H Hm) as Hk.
  unfold ts_differs, getitem in Hk. destruct (m !! "ts") as [t|];
    [|discriminate Hk].
  rewrite bind_Ok in Hk. injection Hk as Hk.
  apply bool_decide_eq_true_1 in Hk. exact Hk.
Qed.

(** C3. For every watermark, when the service answers every configured
    channel, [_fetch_messages_since] returns; no returned message carries
    the watermark as its timestamp; every message of every configured
    channel whose timestamp is strictly greater than the watermark is
    returned; every returned message is a message of a configured
    channel tagged with that channel's ID and name; the result is the
    concatenation, in the enumeration order of the channels, of the
    reversed batches, and a batch that the service lists newest first
    comes out oldest first. *)
Theorem fetch_messages_since_correct (self : bot) (oldest : option string)
    (batch : string -> list message) :
  (∀ c, c ∈ dict_values (channels self) ->
        channels_history (slack self) c oldest
        = Ok (Response true (batch c))) ->
  (∀ c, c ∈ dict_values (channels self) -> is_Some (chan_ids self !! c)) ->
  (∀ c m, c ∈ dict_values (channels self) -> m ∈ batch c ->
          is_Some (m !! "ts")) ->
  ∃ res,
    _fetch_messages_since self oldest = Ok res
    ∧ (∀ m, m ∈ res -> m !! "ts" ≠ oldest)
    ∧ (∀ T c m t, oldest = Some T ->
         c ∈ dict_values (channels self) -> m ∈ batch c ->
         m !! "ts" = Some t -> String.ltb T t = true ->
         tagged c (name_of self c) m ∈ res)
    ∧ (∀ m, m ∈ res ->
         ∃ c name m0,
           c ∈ dict_values (channels self)
           ∧ chan_ids self !! c = Some name
           ∧ m0 ∈ batch c
           ∧ m = tagged c name m0
           ∧ m !! "chan_id" = Some c
           ∧ m !! "channel" = Some name)
    ∧ res = dict_values (channels self)
              ≫= (fun c => filter (fresh oldest) (segment self batch c))
    ∧ (∀ c, StronglySorted (flip ts_lt) (batch c) ->
            StronglySorted ts_lt
              (filter (fresh oldest) (segment self batch c))).
Proof.
  intros Hh Hi Ht.
  set (res := dict_values (channels self)
                ≫= (fun c => filter (fresh oldest) (segment self batch c))).
  assert (Hmem : ∀ m, m ∈ res ↔
            ∃ c, c ∈ dict_values (channels self)
                 ∧ fresh oldest m
                 ∧ ∃ m0, m0 ∈ batch c ∧ m = tagged c (name_of self c) m0).
  { intros m. unfold res. rewrite list_elem_of_bind. split.
    - intros (c & Hm & Hc). apply list_elem_of_filter in Hm as [Hf Hm].
      unfold segment in Hm. rewrite elem_of_reverse in Hm.
      apply list_elem_of_fmap in Hm as (m0 & -> & Hm0). eauto 8.
    - intros (c & Hc & Hf & m0 & Hm0 & ->). exists c. split; [|exact Hc].
      apply list_elem_of_filter. split; [exact Hf|].
      unfold segment. apply elem_of_reverse.
      apply list_elem_of_fmap_2. exact Hm0. }
  exists res. split; [|split; [|split; [|split; [|split]]]].
  - unfold _fetch_messages_since.
    rewrite (fetch_loop_total self oldest batch _ [] Hh Hi), bind_Ok.
    cbn [app]. rewrite (filterM_total _ (fresh oldest)).
    + unfold res. rewrite filter_bind. reflexivity.
    + intros m Hm. apply ts_differs_fresh.
      apply list_elem_of_bind in Hm as (c & Hm & Hc).
      unfold segment in Hm. rewrite elem_of_reverse in Hm.
      apply list_elem_of_fmap in Hm as (m0 & -> & Hm0).
      rewrite tagged_ts. eauto.
  - intros m Hm. apply Hmem in Hm as (c & _ & Hf & _). exact Hf.
  - intros T c m t -> Hc Hm Hts Hlt. apply Hmem. exists c.
    split; [exact Hc|]. split; [|eauto].
    unfold fresh. rewrite tagged_ts, Hts. intros [= ->].
    rewrite ltb_irrefl in Hlt. discriminate.
  - intros m Hm. apply Hmem in Hm as (c & Hc & _ & m0 & Hm0 & ->).
    destruct (Hi c Hc) as [name Hname]. exists c, name, m0.
    unfold name_of. rewrite Hname. cbn [default].
    rewrite tagged_chan_id, tagged_channel. auto 10.
  - reflexivity.
  - intros c. apply segment_sorted.
Qed.

Lemma fetch_messages_since_correct_witness :
  ∃ res,
    _fetch_messages_since ex_bot (Some "100") = Ok res
    ∧ (∀ m, m ∈ res -> m !! "ts" ≠ Some "100")
    ∧ (∀ T c m t, Some "100" = Some T ->
         c ∈ dict_values (channels ex_bot) -> m ∈ ex_batch c ->
         m !! "ts" = Some t -> String.ltb T t = true ->
         tagged c (name_of ex_bot c) m ∈ res)
    ∧ (∀ m, m ∈ res ->
         ∃ c name m0,
           c ∈ dict_values (channels ex_bot)
           ∧ chan_ids ex_bot !! c = Some name
           ∧ m0 ∈ ex_batch c
           ∧ m = tagged c name m0
           ∧ m !! "chan_id" = Some c
           ∧ m !! "channel" = Some name)
    ∧ res = dict_values (channels ex_bot)
              ≫= (fun c => filter (fresh (Some "100")) (segment ex_bot ex_batch c))
    ∧ (∀ c, StronglySorted (flip ts_lt) (ex_batch c) ->
            StronglySorted ts_lt
              (filter (fresh (Some "100")) (segment ex_bot ex_batch c))).
Proof.
  apply (fetch_messages_since_correct ex_bot (Some "100") ex_batch).
  - intros c Hc. cbn in Hc. each_member Hc; reflexivity.
  - intros c Hc. cbn in Hc. each_member Hc; vm_compute; eauto.
  - intros c m Hc Hm. cbn in Hc.
    each_member Hc; vm_compute in Hm; each_member Hm; vm_compute; eauto.
Defined.

(** ** The message loop *)

Lemma firehose_loop_calls (message : message) (fs : list callable)
    (out : list event) :
  firehose_loop message fs out = out ++ firehose_calls message fs.
Proof.
  unfold firehose_loop, firehose_calls. revert out.
  induction fs as [|f fs IH]; intros out; cbn [foldl fmap list_fmap].
  - rewrite app_nil_r. reflexivity.
  - rewrite IH, <- app_assoc. reflexivity.
Qed.

Lemma subscriber_loop_calls (message : message) (text : string)
    (subs : list (callable * matcher)) (out : list event) :
  subscriber_loop message text subs out
  = out ++ subscriber_calls message text subs.
Proof.
  unfold subscriber_loop, subscriber_calls. revert out.
  induction subs as [|s subs IH]; intros out; cbn [foldl].
  - cbn. rewrite app_nil_r. reflexivity.
  - rewrite IH, filter_cons. destruct (search (snd s) text) eqn:Hs.
    + rewrite decide_True by reflexivity.
      rewrite fmap_cons, <- app_assoc. reflexivity.
    + rewrite decide_False by discriminate. reflexivity.
Qed.

Lemma command_loop_calls (message : message) (cmd args : string)
    (cmds : list (callable * pyval)) (out : list event) :
  command_loop message cmd args cmds out
  = out ++ command_calls message cmd args cmds.
Proof.
  unfold command_loop, command_calls. revert out.
  induction cmds as [|c cmds IH]; intros out; cbn [foldl].
  - cbn. rewrite app_nil_r. reflexivity.
  - rewrite IH, filter_cons. destruct (decide (snd c = PStr cmd)).
    + rewrite fmap_cons, <- app_assoc. reflexivity.
    + reflexivity.
Qed.

Lemma dispatch_delivered (self : bot) (reg : registry) (message : message)
    (out : list event) :
  dispatch self reg message out = out ++ delivered self reg message.
Proof.
  unfold dispatch, delivered.
  destruct (message !! "text") as [text|]; [|rewrite app_nil_r; reflexivity].
  destruct (self_produced self message); [rewrite app_nil_r; reflexivity|].
  cbn zeta. unfold parsed_command_calls.
  destruct (cmd_match (botnick self) text) as [[cmd args]|].
  - rewrite command_loop_calls, subscriber_loop_calls, firehose_loop_calls.
    rewrite <- !app_assoc. reflexivity.
  - rewrite subscriber_loop_calls, firehose_loop_calls.
    rewrite <- !app_assoc, app_nil_r. reflexivity.
Qed.



(** A self-produced message adds nothing, and whatever a message adds
    shows that message only. *)
Lemma delivered_self_produced (self : bot) (reg : registry)
    (message : message) :
  self_produced self message = true -> delivered self reg message = [].
Proof.
  intros Hs. unfold delivered. rewrite Hs.
  destruct (message !! "text"); reflexivity.
Qed.

Lemma delivered_shows (self : bot) (reg : registry) (message : message)
    (e : event) (m : gmap string string) :
  e ∈ delivered self reg message -> m ∈ event_messages e -> m = message.
Proof.
  unfold delivered. destruct (message !! "text") as [text|];
    [|intros H; apply elem_of_nil in H; destruct H].
  destruct (self_produced self message);
    [intros H; apply elem_of_nil in H; destruct H|].
  intros He Hm. apply elem_of_cons in He as [->|He].
  { cbn in Hm. apply list_elem_of_singleton in Hm. exact Hm. }
  rewrite !elem_of_app in He. unfold parsed_command_calls in He.
  destruct He as [He|[He|He]].
  - apply list_elem_of_fmap in He as (f & -> & _).
    cbn in Hm. apply list_elem_of_singleton in Hm. exact Hm.
  - apply list_elem_of_fmap in He as (f & -> & _).
    cbn in Hm. apply list_elem_of_singleton in Hm. exact Hm.
  - destruct (cmd_match (botnick self) text) as [[cmd args]|];
      [|apply elem_of_nil in He; destruct He].
    apply list_elem_of_fmap in He as (f & -> & _).
    cbn in Hm. apply list_elem_of_singleton in Hm. exact Hm.
Qed.

Lemma run_loop_effects (self : bot) (reg : registry)
    (messages : list message) (ts ts' : string) (out out' : list event) :
  foldlM (run_body self reg) (ts, out) messages = Ok (ts', out') ->
  ∃ new, out' = out ++ new
         ∧ ∀ e m, e ∈ new -> m ∈ event_messages e ->
                  m ∈ messages ∧ self_produced self m = false.
Proof.
  revert ts out. induction messages as [|x messages IH]; intros ts out H.
  - cbn in H. injection H as <- <-. exists []. rewrite app_nil_r.
    split; [reflexivity|]. intros e m He. inversion He.
  - cbn [foldlM] in H.
    destruct (run_body self reg (ts, out) x) as [[t o]|err] eqn:Hb;
      [|discriminate H].
    rewrite bind_Ok in H. unfold run_body in Hb.
    destruct (getitem x "ts") as [t0|err]; [|discriminate Hb].
    rewrite bind_Ok in Hb. cbn [snd] in Hb.
    rewrite dispatch_delivered in Hb. injection Hb as <- <-.
    apply IH in H as (new & -> & Hnew).
    exists (delivered self reg x ++ new). rewrite app_assoc.
    split; [reflexivity|]. intros e m He Hm.
    apply elem_of_app in He as [He|He].
    + pose proof (delivered_shows _ _ _ _ _ He Hm) as ->.
      split; [left|].
      destruct (self_produced self x) eqn:Hs; [|reflexivity].
      rewrite (delivered_self_produced _ _ _ Hs) in He.
      apply elem_of_nil in He. destruct He.
    + destruct (Hnew e m He Hm) as [Hin Hs]. split; [right; exact Hin|exact Hs].
Qed.

(** C5. A message whose subtype is [bot_message] and whose username is
    the name of the bot is handed to no handler: the loop body leaves the
    effects as they are, and in a whole turn of the loop no call and no
    printed line shows such a message. *)
Theorem self_produced_never_delivered (self : bot) (message : message) :
  message !! "subtype" = Some "bot_message" ->
  message !! "username" = Some (botname self) ->
  (∀ reg out, dispatch self reg message out = out)
  ∧ (∀ reg ts out ts' out',
       run_cycle self reg ts out = Ok (ts', out') ->
       ∃ new, out' = out ++ new
              ∧ ∀ e, e ∈ new -> message ∉ event_messages e).
Proof.
  intros Hsub Huser.
  assert (Hs : self_produced self message = true).
  { unfold self_produced. rewrite Hsub, Huser.
    rewrite decide_True by reflexivity.
    apply bool_decide_eq_true_2. reflexivity. }
  split.
  - intros reg out. rewrite dispatch_delivered.
    rewrite (delivered_self_produced _ _ _ Hs). apply app_nil_r.
  - intros reg ts out ts' out' H. unfold run_cycle in H.
    destruct (_fetch_messages_since self (Some ts)) as [messages|err];
      [|discriminate].
    apply run_loop_effects in H as (new & -> & Hnew).
    exists new. split; [reflexivity|]. intros e He Hm.
    destruct (Hnew e message He Hm) as [_ Hf]. congruence.
Qed.

Lemma self_produced_never_delivered_witness :
  (∀ reg out, dispatch ex_bot reg ex_own_message out = out)
  ∧ (∀ reg ts out ts' out',
       run_cycle ex_bot reg ts out = Ok (ts', out') ->
       ∃ new, out' = out ++ new
              ∧ ∀ e, e ∈ new -> ex_own_message ∉ event_messages e).
Proof.
  apply (self_produced_never_delivered ex_bot ex_own_message).
  - vm_compute. reflexivity.
  - vm_compute. reflexivity.
Defined.

(** ** The watermark *)

Lemma run_loop_total (self : bot) (reg : registry)
    (messages : list message) (st : string * list event) :
  (∀ m, m ∈ messages -> is_Some (m !! "ts")) ->
  ∃ st', foldlM (run_body self reg) st messages = Ok st'.
Proof.
  revert st. induction messages as [|x messages IH]; intros st Hts.
  - exists st. reflexivity.
  - destruct (Hts x ltac:(left)) as [t Ht]. cbn [foldlM].
    assert (Hb : run_body self reg st x
                 = Ok (t, dispatch self reg x (snd st))).
    { unfold run_body. rewrite (getitem_Some _ _ _ Ht). reflexivity. }
    rewrite Hb, bind_Ok. apply IH. intros m Hm. apply Hts. right. exact Hm.
Qed.

(** After the loop the watermark is the timestamp of the message the
    loop saw last, whatever the timestamps before it. *)
Lemma run_loop_watermark_last (self : bot) (reg : registry)
    (messages : list message) (m : message) (t ts : string)
    (out : list event) :
  (∀ m', m' ∈ messages -> is_Some (m' !! "ts")) ->
  m !! "ts" = Some t ->
  ∃ out', foldlM (run_body self reg) (ts, out) (messages ++ [m])
          = Ok (t, out').
Proof.
  intros Hts Ht. rewrite foldlM_app.
  destruct (run_loop_total self reg messages (ts, out) Hts) as [[t0 o] ->].
  rewrite bind_Ok. cbn [foldlM]. unfold run_body.
  rewrite (getitem_Some _ _ _ Ht), !bind_Ok. eauto.
Qed.

(** C1, on the code: with the channels [general] and [random], the
    watermark ["100"], and one new message in each channel, stamped
    ["200"] in the channel enumerated first and ["150"] in the other,
    the fetch returns both messages and their largest timestamp is
    ["200"], yet the loop leaves the watermark at ["150"], the timestamp
    of the message it saw last; the next turn then fetches the message
    stamped ["200"] again and hands it to the handlers a second time.
    The same holds with the channels enumerated the other way round and
    the timestamps exchanged. *)
Theorem run_cycle_watermark_is_last_not_max :
  (∃ messages out out2,
      _fetch_messages_since ex_bot (Some "100") = Ok messages
      ∧ max_ts (timestamps messages) = Some "200"
      ∧ run_cycle ex_bot ex_registry "100" [] = Ok ("150", out)
      ∧ run_cycle ex_bot ex_registry "150" out = Ok ("200", out2)
      ∧ occurrences
          (Invoke "log" [AMessage (tagged "C1" "general" (msg "200" "Hello there"))])
          out2 = 2)
  ∧ (∃ messages out,
      _fetch_messages_since ex_bot_swapped (Some "100") = Ok messages
      ∧ max_ts (timestamps messages) = Some "200"
      ∧ run_cycle ex_bot_swapped ex_registry "100" [] = Ok ("150", out)).
Proof.
  split.
  - eexists _, _, _. split; [vm_compute; reflexivity|].
    split; [vm_compute; reflexivity|].
    split; [vm_compute; reflexivity|].
    split; vm_compute; reflexivity.
  - eexists _, _. split; [vm_compute; reflexivity|].
    split; vm_compute; reflexivity.
Qed.

(** ** Registration *)

Lemma occurrences_app (e : event) (l1 l2 : list event) :
  occurrences e (l1 ++ l2) = occurrences e l1 + occurrences e l2.
Proof. unfold occurrences. rewrite filter_app, length_app. reflexivity. Qed.

Lemma occurrences_cons (e e' : event) (l : list event) :
  occurrences e (e' :: l)
  = (if decide (e' = e) then 1 else 0) + occurrences e l.
Proof.
  unfold occurrences. rewrite filter_cons.
  destruct (decide (e' = e)); reflexivity.
Qed.

Lemma occurrences_twice (e : event) : occurrences e [e; e] = 2.
Proof.
  unfold occurrences. rewrite !filter_cons, !decide_True by reflexivity.
  reflexivity.
Qed.

Lemma firehose_calls_app (message : message) (fs1 fs2 : list callable) :
  firehose_calls message (fs1 ++ fs2)
  = firehose_calls message fs1 ++ firehose_calls message fs2.
Proof. unfold firehose_calls. apply fmap_app. Qed.

(** C10. Registering a firehose handler appends to the list and looks
    for no earlier entry: after the same handler is registered twice the
    list ends with two entries for it, the firehose loop calls it twice
    more, the two calls one after the other at the end of the firehose
    calls, and a delivered message brings two more calls of it than
    before. *)
Theorem firehose_registered_twice (self : bot) (w : world) (h : callable)
    (message : message) (text : string) (out : list event) :
  message !! "text" = Some text ->
  self_produced self message = false ->
  let w1 := fst (firehose h w) in
  let w2 := fst (firehose h w1) in
  let call := Invoke (target h) [AMessage message] in
  firehoses (registered w2) = firehoses (registered w) ++ [Wrapper h; Wrapper h]
  ∧ subscribers (registered w2) = subscribers (registered w)
  ∧ commands (registered w2) = commands (registered w)
  ∧ firehose_loop message (firehoses (registered w2)) out
    = firehose_loop message (firehoses (registered w)) out ++ [call; call]
  ∧ occurrences call (dispatch self (registered w2) message out)
    = 2 + occurrences call (dispatch self (registered w) message out).
Proof.
  intros Ht Hs w1 w2 call.
  assert (Hf : firehoses (registered w2)
               = firehoses (registered w) ++ [Wrapper h; Wrapper h]).
  { cbn. rewrite <- app_assoc. reflexivity. }
  split; [exact Hf|]. split; [reflexivity|]. split; [reflexivity|].
  split.
  - rewrite !firehose_loop_calls, Hf, firehose_calls_app, app_assoc.
    reflexivity.
  - rewrite !dispatch_delivered. unfold delivered. rewrite Ht, Hs.
    rewrite Hf, firehose_calls_app.
    change (subscribers (registered w2)) with (subscribers (registered w)).
    change (commands (registered w2)) with (commands (registered w)).
    change (firehose_calls message [Wrapper h; Wrapper h]) with [call; call].
    set (pre := firehose_calls message (firehoses (registered w))).
    set (post := subscriber_calls message text (subscribers (registered w))
                 ++ parsed_command_calls (botnick self) message text
                      (commands (registered w))).
    rewrite !occurrences_app, !(occurrences_cons _ (PrintMessage message)).
    rewrite !occurrences_app, occurrences_twice. lia.
Qed.

Lemma firehose_registered_twice_witness :
  let m := msg "300" "slack: ping hello" in
  let w := World ex_registry [] in
  occurrences (Invoke "log" [AMessage m])
    (dispatch ex_bot
       (registered (fst (firehose (Plugin "log") (fst (firehose (Plugin "log") w)))))
       m [])
  = 2 + occurrences (Invoke "log" [AMessage m])
          (dispatch ex_bot ex_registry m []).
Proof.
  intros m w.
  apply (firehose_registered_twice ex_bot w (Plugin "log") m
           "slack: ping hello" []).
  - vm_compute. reflexivity.
  - vm_compute. reflexivity.
Defined.

(** C9. [subscribe] applied to a callable raises a type error and
    leaves the registry and the output as they are; applied to a pattern
    that does not compile, it gives a decorator that prints the failure,
    registers nothing, raises nothing and returns the wrapped function;
    applied to a pattern that compiles, the decorator appends the
    subscription; [command] applied to a callable raises a type error
    in the same way. *)
Theorem registration_guards (re_compile : string -> option matcher) :
  (∀ f w, subscribe re_compile (PFn f) w
          = (w, Raise (Exn TypeError "Must supply pattern string")))
  ∧ (∀ s w, ∃ d, subscribe re_compile (PStr s) w = (w, Ok d)
       ∧ (re_compile s = None ->
          ∀ wrapped w',
            d wrapped w'
            = (World (registered w')
                     (output w' ++ [PrintFailedMatcher wrapped]),
               Ok (Wrapper wrapped)))
       ∧ (∀ m, re_compile s = Some m ->
          ∀ wrapped w',
            d wrapped w'
            = (World (Registry
                        (subscribers (registered w') ++ [(Wrapper wrapped, m)])
                        (commands (registered w'))
                        (firehoses (registered w')))
                     (output w'),
               Ok (Wrapper wrapped))))
  ∧ (∀ f w, command (PFn f) w
            = (w, Raise (Exn TypeError "Must supply command string")))
  ∧ (∀ v w, is_callable v = false ->
       ∃ d, command v w = (w, Ok d)
            ∧ ∀ wrapped w',
                d wrapped w'
                = (World (Registry
                            (subscribers (registered w'))
                            (commands (registered w') ++ [(Wrapper wrapped, v)])
                            (firehoses (registered w')))
                         (output w'),
                   Ok (Wrapper wrapped))).
Proof.
  split; [reflexivity|]. split; [|split; [reflexivity|]].
  - intros s w. exists (real_subscribe re_compile (PStr s)).
    split; [reflexivity|]. split.
    + intros Hc wrapped w'. unfold real_subscribe, compile. rewrite Hc.
      reflexivity.
    + intros m Hc wrapped w'. unfold real_subscribe, compile. rewrite Hc.
      reflexivity.
  - intros v w Hv. exists (real_command v). unfold command. rewrite Hv.
    split; reflexivity.
Qed.

(** A pattern with an unbalanced bracket, in the example compiler. *)
Example subscribe_bad_pattern :
  ∀ d, snd (subscribe literal_compile (PStr "hel(lo") (World ex_registry []))
       = Ok d ->
       d (Plugin "greet") (World ex_registry [])
       = (World ex_registry [PrintFailedMatcher (Plugin "greet")],
          Ok (Wrapper (Plugin "greet"))).
Proof. intros d [= <-]. vm_compute. reflexivity. Qed.

(** ** [upload] *)

(** C8. Whatever its arguments, [upload] raises [AttributeError] at its
    first statement: the bot has no attribute [resolve_channels], the
    method being [_resolve_channels]. Nothing is sent to the service,
    and no call of [upload] succeeds. *)
Theorem upload_always_raises (self : bot) (file_ : string)
    (filename title : option string) (channel : selector)
    (out : list event) :
  getattr "resolve_channels"
  = Raise (Exn AttributeError
             "'Slackard' object has no attribute 'resolve_channels'")
  ∧ upload self file_ filename title channel out
    = Raise (Exn AttributeError
               "'Slackard' object has no attribute 'resolve_channels'")
  ∧ (∀ out', upload self file_ filename title channel out ≠ Ok out')
  ∧ (∃ f, getattr "_resolve_channels" = Ok (ResolveMethod f)
          ∧ f = _resolve_channels).
Proof.
  split; [reflexivity|]. split; [reflexivity|]. split.
  - intros out' H. discriminate H.
  - exists _resolve_channels. split; reflexivity.
Qed.

(** ** Connection errors *)

Lemma init_loop_raises (c_map : gmap string string) (keys : list string)
    (chans : list (string * string)) (ids : gmap string string) (e : exn) :
  init_loop c_map keys chans ids = Raise e -> cls e = KeyError.
Proof.
  revert chans ids. induction keys as [|x keys IH]; intros chans ids H.
  - discriminate H.
  - cbn [init_loop] in H. unfold getitem in H.
    destruct (c_map !! x) as [i|].
    + rewrite bind_Ok in H. apply IH in H. exact H.
    + injection H as <-. reflexivity.
Qed.

Lemma init_connection_listing_ok (self : bot) (chans : list (string * string))
    (e : exn) :
  channels_list (slack self) = Ok chans ->
  _init_connection self = Raise e -> cls e = KeyError.
Proof.
  intros Hl H. unfold _init_connection in H. rewrite Hl in H.
  destruct (init_loop (c_map_of chans) (dict_keys (channels self)) [] ∅)
    as [[c i]|e'] eqn:Hi.
  - discriminate H.
  - injection H as <-. apply init_loop_raises in Hi. exact Hi.
Qed.

(** C7, the claim as it stands fails: the service answers the listing
    with the error [account_inactive]; the error leaves
    [_init_connection] as it came, neither fatal nor recoverable, and
    [main] exits on it. *)
Lemma other_service_error_not_recoverable :
  ¬ (∀ self e,
       channels_list (slack self) = Raise e ->
       e ≠ Exn SlackerError "invalid_auth" ->
       ∃ msg, _init_connection self = Raise (Exn SlackardNonFatalError msg)).
Proof.
  intros H.
  destruct (H (ex_bot_with (failing_service (Exn SlackerError "account_inactive")))
              (Exn SlackerError "account_inactive") eq_refl
              ltac:(discriminate)) as [msg Hm].
  vm_compute in Hm. discriminate Hm.
Qed.

(** C7, amended. [_init_connection] raises the fatal error exactly when
    the service answers the listing with the error [invalid_auth]; any
    other error answered by the service leaves [_init_connection]
    unchanged, neither fatal nor recoverable, and [main] exits on it; an
    exception of any other class raised by the listing becomes the
    recoverable error with the same message, on which [main] waits and
    connects again. *)
Theorem init_connection_errors (self : bot) :
  ((∃ msg, _init_connection self = Raise (Exn SlackardFatalError msg))
   ↔ channels_list (slack self) = Raise (Exn SlackerError "invalid_auth"))
  ∧ (∀ msg, channels_list (slack self) = Raise (Exn SlackerError msg) ->
            msg ≠ "invalid_auth" ->
            _init_connection self = Raise (Exn SlackerError msg)
            ∧ main_except (Exn SlackerError msg) = SysExit 1)
  ∧ (∀ c msg, channels_list (slack self) = Raise (Exn c msg) ->
              c ≠ SlackerError ->
              _init_connection self = Raise (Exn SlackardNonFatalError msg)
              ∧ main_except (Exn SlackardNonFatalError msg)
                = DelayAndReconnect)
  ∧ (∀ msg, main_except (Exn SlackardFatalError msg) = SysExit 1).
Proof.
  split; [|split; [|split]].
  - split.
    + intros [msg H].
      destruct (channels_list (slack self)) as [chans|[c m]] eqn:Hl.
      * apply (init_connection_listing_ok _ _ _ Hl) in H. discriminate H.
      * unfold _init_connection in H. rewrite Hl in H.
        destruct c; try discriminate H.
        destruct (decide (m = "invalid_auth")) as [->|]; [reflexivity|].
        discriminate H.
    + intros Hl. exists "Invalid API key". unfold _init_connection.
      rewrite Hl. reflexivity.
  - intros msg Hl Hne. unfold _init_connection. rewrite Hl.
    rewrite decide_False by exact Hne. split; reflexivity.
  - intros c msg Hl Hne. unfold _init_connection. rewrite Hl.
    destruct c; try (split; reflexivity). congruence.
  - reflexivity.
Qed.

Lemma registration_guards_witness :
  subscribe literal_compile (PFn (Plugin "greet")) (World ex_registry [])
  = (World ex_registry [], Raise (Exn TypeError "Must supply pattern string"))
  ∧ command (PFn (Plugin "pong")) (World ex_registry [])
    = (World ex_registry [], Raise (Exn TypeError "Must supply command string")).
Proof.
  destruct (registration_guards literal_compile) as (H1 & _ & H3 & _).
  split; [apply H1|apply H3].
Defined.

Lemma init_connection_errors_witness :
  _init_connection
    (ex_bot_with (failing_service (Exn OtherException "timed out")))
  = Raise (Exn SlackardNonFatalError "timed out")
  ∧ main_except (Exn SlackardNonFatalError "timed out") = DelayAndReconnect.
Proof.
  destruct (init_connection_errors
              (ex_bot_with (failing_service (Exn OtherException "timed out"))))
    as (_ & _ & H & _).
  apply (H OtherException "timed out"); [reflexivity|discriminate].
Defined.

(** ** The channel registry *)

Lemma fmap_ext_elem_of {A B : Type} (f g : A -> B) (l : list A) :
  (∀ x, x ∈ l -> f x = g x) -> f <$> l = g <$> l.
Proof.
  induction l as [|x l IH]; intros H; [reflexivity|].
  rewrite !fmap_cons, (H x) by left. f_equal. apply IH.
  intros y Hy. apply H. right. exact Hy.
Qed.

Lemma dict_get_None (d : list (string * string)) (k : string) :
  k ∉ dict_keys d -> dict_get d k = None.
Proof.
  induction d as [|[k' v] d IH]; intros Hk; [reflexivity|].
  cbn [dict_get]. unfold dict_keys in Hk. rewrite fmap_cons in Hk.
  apply not_elem_of_cons in Hk as [Hne Hk]. cbn [fst] in Hne.
  rewrite decide_False by congruence. apply IH. exact Hk.
Qed.

Lemma dict_get_elem_of (d : list (string * string)) (k v : string) :
  NoDup (dict_keys d) -> (k, v) ∈ d -> dict_get d k = Some v.
Proof.
  induction d as [|[k' v'] d IH]; intros Hnd Hin; [inversion Hin|].
  unfold dict_keys in Hnd. rewrite fmap_cons in Hnd.
  apply NoDup_cons in Hnd as [Hk' Hnd]. cbn [fst] in Hk'.
  cbn [dict_get]. apply elem_of_cons in Hin as [[= -> ->]|Hin].
  - rewrite decide_True by reflexivity. reflexivity.
  - rewrite decide_False.
    + apply IH; assumption.
    + intros ->. apply Hk'.
      apply (list_elem_of_fmap_2 fst) in Hin. exact Hin.
Qed.

Lemma dict_get_Some_elem_of (d : list (string * string)) (k v : string) :
  dict_get d k = Some v -> (k, v) ∈ d.
Proof.
  induction d as [|[k' v'] d IH]; intros H; [discriminate H|].
  cbn [dict_get] in H. destruct (decide (k' = k)) as [->|].
  - injection H as ->. left.
  - right. apply IH. exact H.
Qed.

Lemma resolve_loop_known (self : bot) (chans acc : list string) :
  (∀ c, c ∈ chans -> is_Some (resolve_one self c)) ->
  resolve_loop self chans acc
  = Ok (acc ++ omap (resolve_one self) chans).
Proof.
  revert acc. induction chans as [|c chans IH]; intros acc H.
  - cbn. rewrite app_nil_r. reflexivity.
  - destruct (H c ltac:(left)) as [i Hi].
    cbn [resolve_loop omap list_omap]. unfold resolve_one in Hi |- *.
    destruct (decide (is_Some (chan_ids self !! c))).
    + rewrite IH by (intros; apply H; right; assumption).
      rewrite <- app_assoc. reflexivity.
    + rewrite Hi. rewrite IH by (intros; apply H; right; assumption).
      rewrite <- app_assoc. reflexivity.
Qed.

Lemma resolve_loop_unknown (self : bot) (chans acc : list string)
    (x : string) :
  x ∈ chans -> resolve_one self x = None ->
  ∃ y, y ∈ chans ∧ resolve_one self y = None
       ∧ resolve_loop self chans acc
         = Raise (Exn AssertionError (unknown_channel y)).
Proof.
  revert acc. induction chans as [|c chans IH]; intros acc Hx Hn;
    [inversion Hx|].
  cbn [resolve_loop].
  destruct (resolve_one self c) as [i|] eqn:Hc.
  - assert (Hx' : x ∈ chans).
    { apply elem_of_cons in Hx as [->|Hx]; [congruence|exact Hx]. }
    unfold resolve_one in Hc.
    destruct (decide (is_Some (chan_ids self !! c))).
    + destruct (IH (acc ++ [c]) Hx' Hn) as (y & Hy & Hyn & ->).
      exists y. split; [right; exact Hy|]. split; [exact Hyn|reflexivity].
    + rewrite Hc. destruct (IH (acc ++ [i]) Hx' Hn) as (y & Hy & Hyn & ->).
      exists y. split; [right; exact Hy|]. split; [exact Hyn|reflexivity].
  - exists c. split; [left|]. split; [exact Hc|].
    unfold resolve_one in Hc.
    destruct (decide (is_Some (chan_ids self !! c))); [discriminate Hc|].
    rewrite Hc. reflexivity.
Qed.

Lemma resolve_loop_raises (self : bot) (chans acc : list string) (e : exn) :
  resolve_loop self chans acc = Raise e -> cls e = AssertionError.
Proof.
  revert acc. induction chans as [|c chans IH]; intros acc H;
    [discriminate H|].
  cbn [resolve_loop] in H.
  destruct (decide (is_Some (chan_ids self !! c))); [eapply IH; exact H|].
  destruct (dict_get (channels self) c); [eapply IH; exact H|].
  injection H as <-. reflexivity.
Qed.

Lemma tuple_of_set_NoDup (l : list string) : NoDup (tuple_of_set l).
Proof. unfold tuple_of_set. apply NoDup_elements. Qed.

Lemma elem_of_tuple_of_set (l : list string) (x : string) :
  x ∈ tuple_of_set l ↔ x ∈ l.
Proof.
  unfold tuple_of_set. rewrite elem_of_elements, elem_of_list_to_set.
  reflexivity.
Qed.

Lemma tuple_of_set_singleton (x : string) : tuple_of_set [x] = [x].
Proof.
  unfold tuple_of_set. cbn [list_to_set foldr].
  rewrite (right_id_L ∅ (∪)). apply elements_singleton.
Qed.

Lemma init_loop_keys (c_map : gmap string string) (keys : list string)
    (chans chans' : list (string * string)) (ids ids' : gmap string string) :
  init_loop c_map keys chans ids = Ok (chans', ids') ->
  dict_keys chans' = dict_keys chans ++ keys
  ∧ ((∀ v, v ∈ dict_values chans -> is_Some (ids !! v)) ->
     ∀ v, v ∈ dict_values chans' -> is_Some (ids' !! v)).
Proof.
  revert chans ids. induction keys as [|x keys IH]; intros chans ids H.
  - injection H as <- <-. rewrite app_nil_r. auto.
  - cbn [init_loop] in H. destruct (getitem c_map x) as [i|e];
      [|discriminate H].
    rewrite bind_Ok in H. apply IH in H as [Hk Hv]. split.
    + rewrite Hk. unfold dict_keys. rewrite fmap_app, <- app_assoc.
      reflexivity.
    + intros Hids. apply Hv. intros v Hin.
      unfold dict_values in Hin. rewrite fmap_app in Hin.
      apply elem_of_app in Hin as [Hin|Hin].
      * destruct (decide (i = v)) as [->|Hne].
        -- rewrite lookup_insert_eq. eauto.
        -- rewrite lookup_insert_ne by exact Hne. apply Hids. exact Hin.
      * cbn in Hin. apply list_elem_of_singleton in Hin as ->.
        rewrite lookup_insert_eq. eauto.
Qed.

(** After [_init_connection] the bot has the names it had before, and
    every ID in [channels] has its entry in [chan_ids]. *)
Lemma init_connection_registry (self self' : bot) :
  _init_connection self = Ok self' ->
  dict_keys (channels self') = dict_keys (channels self)
  ∧ (∀ v, v ∈ dict_values (channels self') -> is_Some (chan_ids self' !! v))
  ∧ slack self' = slack self ∧ botname self' = botname self
  ∧ botnick self' = botnick self.
Proof.
  intros H. unfold _init_connection in H.
  destruct (channels_list (slack self)) as [chans|[c m]].
  - destruct (init_loop (c_map_of chans) (dict_keys (channels self)) [] ∅)
      as [[ch ids]|e] eqn:Hi; [|discriminate H].
    rewrite bind_Ok in H. injection H as <-. cbn.
    apply init_loop_keys in Hi as [Hk Hv]. split; [exact Hk|].
    split; [|auto]. apply Hv. intros v Hin. inversion Hin.
  - destruct c; try discriminate H.
    destruct (decide (m = "invalid_auth")); discriminate H.
Qed.

Lemma omap_dict (f : string -> option string) (l : list (string * string)) :
  (∀ k v, (k, v) ∈ l -> f k = Some v) ->
  omap f (dict_keys l) = dict_values l.
Proof.
  induction l as [|[k v] l IH]; intros H; [reflexivity|].
  unfold dict_keys, dict_values. rewrite !fmap_cons. cbn [omap list_omap fst snd].
  rewrite (H k v) by left. f_equal. apply IH.
  intros k' v' Hin. apply H. right. exact Hin.
Qed.

Lemma resolve_one_name (self : bot) (name i : string) :
  NoDup (dict_keys (channels self)) ->
  chan_ids self !! name = None ->
  (name, i) ∈ channels self ->
  resolve_one self name = Some i.
Proof.
  intros Hnd Hn Hin. unfold resolve_one.
  rewrite decide_False by (rewrite Hn; apply is_Some_None).
  apply dict_get_elem_of; assumption.
Qed.

(** C6. After [_init_connection], the configured names being distinct
    keys and none of them being at the same time a channel ID:
    [_resolve_channels] without argument returns the configured channel
    IDs, all of them and nothing else; with the name of a configured
    channel it returns the ID of that channel alone; with a list that
    holds an identifier that is neither a known ID nor a known name it
    raises the unknown-channel error for such an identifier; and
    whatever it returns holds no element twice. *)
Theorem resolve_channels_correct (self self' : bot) :
  _init_connection self = Ok self' ->
  NoDup (dict_keys (channels self)) ->
  (∀ name, name ∈ dict_keys (channels self') ->
           chan_ids self' !! name = None) ->
  (∃ ids, _resolve_channels self' SelNone = Ok ids
          ∧ NoDup ids
          ∧ ∀ i, i ∈ ids ↔ i ∈ dict_values (channels self'))
  ∧ (∀ name i, (name, i) ∈ channels self' ->
               _resolve_channels self' (SelStr name) = Ok [i])
  ∧ (∀ l x, x ∈ l ->
            chan_ids self' !! x = None ->
            x ∉ dict_keys (channels self') ->
            ∃ y, y ∈ l
                 ∧ chan_ids self' !! y = None
                 ∧ (y ∉ dict_keys (channels self'))
                 ∧ _resolve_channels self' (SelList l)
                   = Raise (Exn AssertionError (unknown_channel y)))
  ∧ (∀ sel ids, _resolve_channels self' sel = Ok ids -> NoDup ids).
Proof.
  intros Hinit Hnd Hdis.
  destruct (init_connection_registry _ _ Hinit) as (Hkeys & _).
  rewrite <- Hkeys in Hnd.
  assert (Hone : ∀ name i, (name, i) ∈ channels self' ->
                           resolve_one self' name = Some i).
  { intros name i Hin. apply resolve_one_name; [exact Hnd| |exact Hin].
    apply Hdis. apply (list_elem_of_fmap_2 fst) in Hin. exact Hin. }
  split; [|split; [|split]].
  - exists (tuple_of_set (dict_values (channels self'))).
    split; [|split; [apply tuple_of_set_NoDup|apply elem_of_tuple_of_set]].
    unfold _resolve_channels. rewrite resolve_loop_known.
    + rewrite bind_Ok. cbn [app]. rewrite (omap_dict _ _ Hone). reflexivity.
    + intros c Hc. apply list_elem_of_fmap in Hc as ([k v] & -> & Hin).
      cbn [fst]. rewrite (Hone k v Hin). eauto.
  - intros name i Hin. unfold _resolve_channels. rewrite resolve_loop_known.
    + rewrite bind_Ok. cbn [app omap list_omap]. rewrite (Hone name i Hin).
      rewrite tuple_of_set_singleton. reflexivity.
    + intros c Hc. apply list_elem_of_singleton in Hc as ->.
      rewrite (Hone name i Hin). eauto.
  - intros l x Hx Hid Hname.
    assert (Hn : resolve_one self' x = None).
    { unfold resolve_one.
      rewrite decide_False by (rewrite Hid; apply is_Some_None).
      apply dict_get_None. exact Hname. }
    destruct (resolve_loop_unknown self' l [] x Hx Hn) as (y & Hy & Hyn & Hr).
    exists y. unfold resolve_one in Hyn.
    destruct (decide (is_Some (chan_ids self' !! y))) as [|Hno];
      [discriminate Hyn|].
    split; [exact Hy|]. split.
    { destruct (chan_ids self' !! y) eqn:E; [|reflexivity].
      exfalso. apply Hno. eauto. }
    split.
    { intros Hk. apply list_elem_of_fmap in Hk as ([k v] & -> & Hin).
      cbn [fst] in Hyn. apply (dict_get_elem_of _ _ _ Hnd) in Hin. congruence. }
    unfold _resolve_channels. rewrite Hr. reflexivity.
  - intros sel ids H. unfold _resolve_channels in H.
    destruct (resolve_loop self' _ []) as [r|e]; [|discriminate H].
    rewrite bind_Ok in H. injection H as <-. apply tuple_of_set_NoDup.
Qed.

Lemma resolve_channels_correct_witness :
  (∃ ids, _resolve_channels ex_bot SelNone = Ok ids
          ∧ NoDup ids
          ∧ ∀ i, i ∈ ids ↔ i ∈ dict_values (channels ex_bot))
  ∧ _resolve_channels ex_bot (SelStr "general") = Ok ["C1"]
  ∧ ∃ y, _resolve_channels ex_bot (SelList ["general"; "unknown-chan"])
         = Raise (Exn AssertionError (unknown_channel y)).
Proof.
  assert (Hinit : _init_connection ex_bot_configured = Ok ex_bot).
  { vm_compute. reflexivity. }
  destruct (resolve_channels_correct ex_bot_configured ex_bot Hinit)
    as (H1 & H2 & H3 & _).
  - apply (bool_decide_unpack _). vm_compute. exact I.
  - intros name Hn. cbn in Hn. each_member Hn; vm_compute; reflexivity.
  - split; [exact H1|]. split.
    + apply H2. cbn. left.
    + destruct (H3 ["general"; "unknown-chan"] "unknown-chan")
        as (y & _ & _ & _ & Hy).
      * right. left.
      * vm_compute. reflexivity.
      * cbn. intros Hn.
        repeat (apply elem_of_cons in Hn as [Hn|Hn]; [discriminate Hn|]).
        inversion Hn.
      * exists y. exact Hy.
Defined.

(** ** The command matcher *)

Lemma append_cons (c : ascii) (s r : string) :
  String c s +:+ r = String c (s +:+ r).
Proof. reflexivity. Qed.

Lemma append_nil (r : string) : EmptyString +:+ r = r.
Proof. reflexivity. Qed.

Lemma strip_prefix_ci_app (nick n rest : string) :
  lower_string n = lower_string nick ->
  strip_prefix_ci nick (n +:+ rest) = Some rest.
Proof.
  revert n. induction nick as [|a nick IH]; intros [|b n] H;
    try discriminate H.
  - destruct rest; reflexivity.
  - cbn [lower_string] in H. injection H as Hc Hs.
    rewrite append_cons. cbn [strip_prefix_ci].
    rewrite decide_True by (symmetry; exact Hc). apply IH. exact Hs.
Qed.

Lemma strip_prefix_ci_inv (nick text rest : string) :
  strip_prefix_ci nick text = Some rest ->
  ∃ n, text = n +:+ rest ∧ lower_string n = lower_string nick.
Proof.
  revert text. induction nick as [|a nick IH]; intros text H.
  - exists EmptyString. destruct text; injection H as <-; split; reflexivity.
  - destruct text as [|b text]; [discriminate H|].
    cbn [strip_prefix_ci] in H.
    destruct (decide (lower a = lower b)) as [Hc|]; [|discriminate H].
    destruct (IH _ H) as (n & -> & Hn). exists (String b n).
    split; [reflexivity|]. cbn [lower_string]. rewrite Hn, Hc. reflexivity.
Qed.

Lemma skip_spaces_app (ws rest : string) :
  all_spaces ws = true -> skip_spaces (ws +:+ rest) = skip_spaces rest.
Proof.
  induction ws as [|c ws IH]; intros H; [reflexivity|].
  cbn [all_spaces string_forallb] in H.
  apply andb_true_iff in H as [Hc Hws].
  rewrite append_cons. cbn [skip_spaces]. rewrite Hc. apply IH. exact Hws.
Qed.

Lemma skip_spaces_inv (s : string) :
  ∃ ws, s = ws +:+ skip_spaces s ∧ all_spaces ws = true.
Proof.
  induction s as [|c s (ws & Hs & Hws)].
  - exists EmptyString. split; reflexivity.
  - cbn [skip_spaces]. destruct (is_space c) eqn:Hc.
    + exists (String c ws). split.
      * rewrite append_cons, <- Hs. reflexivity.
      * cbn [all_spaces string_forallb]. rewrite Hc. exact Hws.
    + exists EmptyString. split; reflexivity.
Qed.

Lemma span_nonspace_inv (s w r : string) :
  span_nonspace s = (w, r) ->
  s = w +:+ r ∧ no_space w = true ∧ ends_word r = true.
Proof.
  revert w r. induction s as [|c s IH]; intros w r H.
  - injection H as <- <-. repeat split.
  - cbn [span_nonspace] in H. destruct (is_space c) eqn:Hc.
    + injection H as <- <-. repeat split. cbn. exact Hc.
    + destruct (span_nonspace s) as [w' r'] eqn:Hs.
      injection H as <- <-. destruct (IH _ _ eq_refl) as (-> & Hw & Hr).
      split; [reflexivity|]. split; [|exact Hr].
      cbn [no_space string_forallb]. rewrite Hc. exact Hw.
Qed.

Lemma append_assoc (a b c : string) : (a +:+ b) +:+ c = a +:+ b +:+ c.
Proof.
  induction a as [|x a IH]; [reflexivity|].
  rewrite !append_cons, IH. reflexivity.
Qed.

(** Whatever [cmd_match] accepts has the form of a command. *)
Lemma cmd_match_form (nick text cmd args : string) :
  cmd_match nick text = Some (cmd, args) -> command_form nick text cmd.
Proof.
  unfold cmd_match. intros H.
  destruct (strip_prefix_ci nick text) as [[|c rest]|] eqn:Hp;
    try discriminate H.
  destruct (decide (c = ":"%char)) as [->|Hne].
  2:{ destruct c as [[] [] [] [] [] [] [] []]; try discriminate H.
      exfalso. apply Hne. reflexivity. }
  destruct (span_nonspace (skip_spaces rest)) as [w r] eqn:Hs.
  destruct w as [|x w]; [discriminate H|]. injection H as <- _.
  apply strip_prefix_ci_inv in Hp as (n & -> & Hn).
  destruct (skip_spaces_inv rest) as (ws & Hrest & Hws).
  apply span_nonspace_inv in Hs as (Hsk & Hw & Hr).
  exists n, ws, r. split.
  - rewrite Hrest, Hsk. reflexivity.
  - repeat split; try assumption. discriminate.
Qed.

(** The text of the claim is matched, with the groups of the claim. *)
Lemma cmd_match_ping (nick n ws : string) :
  lower_string n = lower_string nick ->
  all_spaces ws = true ->
  cmd_match nick (n +:+ ":" +:+ ws +:+ "ping extra args")
  = Some ("ping", "extra args").
Proof.
  intros Hn Hws. unfold cmd_match.
  rewrite (strip_prefix_ci_app _ _ _ Hn), append_cons, append_nil.
  rewrite (skip_spaces_app _ _ Hws). reflexivity.
Qed.

(** C4, the claim as it stands fails: the bot's own message with the
    text [slack: ping extra args] has the form of the claim, and the
    handler registered under [ping] is not called for it. *)
Lemma own_command_message_not_dispatched :
  ¬ (∀ (self : bot) (reg : registry) (message : message) (f : callable),
       message !! "text" = Some (botnick self +:+ ": ping extra args") ->
       (f, PStr "ping") ∈ commands reg ->
       Invoke (target f) [AStr "extra args"; AMessage message]
       ∈ dispatch self reg message []).
Proof.
  intros H.
  specialize (H ex_bot ex_registry ex_own_message (Wrapper (Plugin "pong"))).
  assert (Hd : dispatch ex_bot ex_registry ex_own_message [] = []).
  { vm_compute. reflexivity. }
  rewrite Hd in H. apply (not_elem_of_nil _ (H eq_refl ltac:(left))).
Qed.

(** C4, amended. The nickname holding no special character of regular
    expressions: for every message that is not self-produced and whose
    text is the nickname in any case, a colon, any spaces and
    [ping extra args], the matcher extracts the command [ping] and the
    arguments [extra args], and the loop, after the firehose and
    subscriber calls, calls every handler registered under exactly
    [ping], in the order of registration, with the arguments and the
    message. And a handler of a command is called for a message only if
    the message is not self-produced and its text has the form of a
    command for which the handler is registered. *)
Theorem command_dispatch (self : bot) (reg : registry) (message : message)
    (n ws : string) (out : list event) :
  regex_literal (botnick self) = true ->
  lower_string n = lower_string (botnick self) ->
  all_spaces ws = true ->
  message !! "text" = Some (n +:+ ":" +:+ ws +:+ "ping extra args") ->
  self_produced self message = false ->
  cmd_match (botnick self) (n +:+ ":" +:+ ws +:+ "ping extra args")
  = Some ("ping", "extra args")
  ∧ dispatch self reg message out
    = out ++ [PrintMessage message]
          ++ firehose_calls message (firehoses reg)
          ++ subscriber_calls message (n +:+ ":" +:+ ws +:+ "ping extra args")
               (subscribers reg)
          ++ ((fun c => Invoke (target (fst c))
                          [AStr "extra args"; AMessage message])
                <$> filter (fun c => snd c = PStr "ping") (commands reg))
  ∧ (∀ f, (f, PStr "ping") ∈ commands reg ->
          Invoke (target f) [AStr "extra args"; AMessage message]
          ∈ dispatch self reg message out)
  ∧ (∀ (m : gmap string string) (f a : string),
       Invoke f [AStr a; AMessage m] ∈ dispatch self reg m [] ->
       self_produced self m = false
       ∧ ∃ text cmd g,
           m !! "text" = Some text
           ∧ command_form (botnick self) text cmd
           ∧ (g, PStr cmd) ∈ commands reg
           ∧ target g = f).
Proof.
  intros _ Hn Hws Ht Hs.
  pose proof (cmd_match_ping (botnick self) n ws Hn Hws) as Hm.
  assert (Hd : dispatch self reg message out
    = out ++ [PrintMessage message]
          ++ firehose_calls message (firehoses reg)
          ++ subscriber_calls message (n +:+ ":" +:+ ws +:+ "ping extra args")
               (subscribers reg)
          ++ ((fun c => Invoke (target (fst c))
                          [AStr "extra args"; AMessage message])
                <$> filter (fun c => snd c = PStr "ping") (commands reg))).
  { rewrite dispatch_delivered. unfold delivered, parsed_command_calls.
    rewrite Ht, Hs, Hm. reflexivity. }
  split; [exact Hm|]. split; [exact Hd|]. split.
  - intros f Hf. rewrite Hd. rewrite !elem_of_app. do 4 right.
    apply list_elem_of_fmap. exists (f, PStr "ping").
    split; [reflexivity|].
    apply list_elem_of_filter. split; [reflexivity|exact Hf].
  - intros m f a Hin. rewrite dispatch_delivered in Hin. cbn [app] in Hin.
    unfold delivered in Hin.
    destruct (m !! "text") as [text|] eqn:Htext; [|inversion Hin].
    destruct (self_produced self m); [inversion Hin|].
    split; [reflexivity|].
    apply elem_of_cons in Hin as [Hin|Hin]; [discriminate Hin|].
    rewrite !elem_of_app in Hin. destruct Hin as [Hin|[Hin|Hin]].
    + apply list_elem_of_fmap in Hin as (g & Hg & _). discriminate Hg.
    + apply list_elem_of_fmap in Hin as (g & Hg & _). discriminate Hg.
    + unfold parsed_command_calls in Hin.
      destruct (cmd_match (botnick self) text) as [[cmd args]|] eqn:Hc;
        [|inversion Hin].
      apply list_elem_of_fmap in Hin as ([g v] & Hg & Hgin).
      apply list_elem_of_filter in Hgin as [Hv Hgin]. cbn [snd] in Hv.
      subst v. injection Hg as -> _.
      exists text, cmd, g. split; [reflexivity|].
      split; [exact (cmd_match_form _ _ _ _ Hc)|]. split; [exact Hgin|].
      reflexivity.
Qed.

Lemma command_dispatch_witness :
  let m := msg "300" "Slack:  ping extra args" in
  cmd_match "slack" "Slack:  ping extra args" = Some ("ping", "extra args")
  ∧ Invoke "pong" [AStr "extra args"; AMessage m]
    ∈ dispatch ex_bot ex_registry m [].
Proof.
  intros m.
  destruct (command_dispatch ex_bot ex_registry m "Slack" "  " [])
    as (H1 & _ & H3 & _).
  - vm_compute. reflexivity.
  - vm_compute. reflexivity.
  - vm_compute. reflexivity.
  - vm_compute. reflexivity.
  - vm_compute. reflexivity.
  - split; [exact H1|]. apply (H3 (Wrapper (Plugin "pong"))). left.
Defined.

(** * Further properties of the code *)

(** ** [_init_connection]: the two maps *)

Lemma c_map_of_snoc (l : list (string * string)) (c : string * string) :
  c_map_of (l ++ [c]) = <[fst c := snd c]> (c_map_of l).
Proof. unfold c_map_of. rewrite foldl_snoc. reflexivity. Qed.

Lemma c_map_of_None (l : list (string * string)) (x : string) :
  c_map_of l !! x = None ↔ x ∉ fst <$> l.
Proof.
  induction l as [|c l IH] using rev_ind.
  - split; [intros _ H; inversion H|reflexivity].
  - rewrite c_map_of_snoc, fmap_app, not_elem_of_app. cbn [fmap list_fmap].
    rewrite lookup_insert_None, IH, not_elem_of_cons. split.
    + intros [H1 H2]. split; [exact H1|]. split; [congruence|].
      apply not_elem_of_nil.
    + intros [H1 [H2 _]]. split; [exact H1|congruence].
Qed.

Lemma c_map_of_Some (l : list (string * string)) (x i : string) :
  c_map_of l !! x = Some i -> (x, i) ∈ l.
Proof.
  induction l as [|[k v] l IH] using rev_ind; [discriminate|].
  rewrite c_map_of_snoc. cbn [fst snd].
  destruct (decide (k = x)) as [->|Hne].
  - rewrite lookup_insert_eq. intros [= ->]. apply elem_of_app. right. left.
  - rewrite lookup_insert_ne by exact Hne. intros H.
    apply elem_of_app. left. apply IH. exact H.
Qed.

Lemma init_loop_missing (c_map : gmap string string) (keys : list string)
    (chans : list (string * string)) (ids : gmap string string) (x : string) :
  x ∈ keys -> c_map !! x = None ->
  ∃ y, y ∈ keys ∧ c_map !! y = None
       ∧ init_loop c_map keys chans ids = Raise (Exn KeyError y).
Proof.
  revert chans ids. induction keys as [|k keys IH]; intros chans ids Hx Hn;
    [inversion Hx|].
  cbn [init_loop]. unfold getitem. destruct (c_map !! k) as [i|] eqn:Hk.
  - rewrite bind_Ok.
    assert (Hx' : x ∈ keys).
    { apply elem_of_cons in Hx as [->|Hx]; [congruence|exact Hx]. }
    destruct (IH (chans ++ [(k, i)]) (<[i:=k]> ids) Hx' Hn)
      as (y & Hy & Hyn & ->).
    exists y. split; [right; exact Hy|]. split; [exact Hyn|reflexivity].
  - exists k. split; [left|]. split; [exact Hk|reflexivity].
Qed.

Lemma init_loop_maps_agree (c_map : gmap string string) (keys : list string)
    (chans chans' : list (string * string)) (ids ids' : gmap string string) :
  init_loop c_map keys chans ids = Ok (chans', ids') ->
  maps_agree c_map chans ids -> maps_agree c_map chans' ids'.
Proof.
  revert chans ids. induction keys as [|x keys IH]; intros chans ids H Hinv.
  - injection H as <- <-. exact Hinv.
  - cbn [init_loop] in H. unfold getitem in H.
    destruct (c_map !! x) as [i|] eqn:Hx; [|discriminate H].
    rewrite bind_Ok in H. apply IH in H; [exact H|].
    destruct Hinv as (H1 & H2 & H3). split; [|split].
    + intros n j Hin. apply elem_of_app in Hin as [Hin|Hin]; [eauto|].
      apply list_elem_of_singleton in Hin as [= -> ->]. exact Hx.
    + intros j n Hj. apply elem_of_app.
      destruct (decide (i = j)) as [->|Hne].
      * rewrite lookup_insert_eq in Hj. injection Hj as <-. right. left.
      * rewrite lookup_insert_ne in Hj by exact Hne. left. eauto.
    + intros n j Hin. destruct (decide (i = j)) as [->|Hne].
      * rewrite lookup_insert_eq. eauto.
      * rewrite lookup_insert_ne by exact Hne.
        apply elem_of_app in Hin as [Hin|Hin]; [eauto|].
        apply list_elem_of_singleton in Hin as [= -> ->]. congruence.
Qed.

Lemma NoDup_snd_inj (l : list (string * string)) (a b i : string) :
  NoDup (snd <$> l) -> (a, i) ∈ l -> (b, i) ∈ l -> a = b.
Proof.
  induction l as [|[k v] l IH]; intros Hnd Ha Hb; [inversion Ha|].
  rewrite fmap_cons in Hnd. apply NoDup_cons in Hnd as [Hv Hnd].
  cbn [snd] in Hv.
  apply elem_of_cons in Ha as [Ha|Ha];
    apply elem_of_cons in Hb as [Hb|Hb].
  - congruence.
  - injection Ha as -> ->. exfalso. apply Hv.
    apply (list_elem_of_fmap_2 snd) in Hb. exact Hb.
  - injection Hb as -> ->. exfalso. apply Hv.
    apply (list_elem_of_fmap_2 snd) in Ha. exact Ha.
  - apply IH; assumption.
Qed.

(** X1. When the listing of the service succeeds but lacks a configured
    channel name, [_init_connection] raises [KeyError] for a configured
    name that the listing lacks; [main] takes it for an unhandled
    exception and exits. *)
Theorem init_connection_unknown_name (self : bot)
    (listing : list (string * string)) (x : string) :
  channels_list (slack self) = Ok listing ->
  x ∈ dict_keys (channels self) ->
  x ∉ fst <$> listing ->
  ∃ y, y ∈ dict_keys (channels self)
       ∧ (y ∉ fst <$> listing)
       ∧ _init_connection self = Raise (Exn KeyError y)
       ∧ main_except (Exn KeyError y) = SysExit 1.
Proof.
  intros Hl Hx Hn. apply c_map_of_None in Hn.
  destruct (init_loop_missing (c_map_of listing) _ [] ∅ x Hx Hn)
    as (y & Hy & Hyn & Hr).
  exists y. split; [exact Hy|]. split; [apply c_map_of_None; exact Hyn|].
  split; [|reflexivity].
  unfold _init_connection. rewrite Hl, Hr. reflexivity.
Qed.

Lemma init_connection_unknown_name_witness :
  ∃ y, y ∈ dict_keys (channels ex_bot_missing_channel)
       ∧ (y ∉ fst <$> [("general", "C1")])
       ∧ _init_connection ex_bot_missing_channel = Raise (Exn KeyError y)
       ∧ main_except (Exn KeyError y) = SysExit 1.
Proof.
  apply (init_connection_unknown_name ex_bot_missing_channel
           [("general", "C1")] "random").
  - reflexivity.
  - cbn. right. left.
  - cbn. intros H.
    repeat (apply elem_of_cons in H as [H|H]; [discriminate H|]).
    inversion H.
Defined.

(** X2. After a successful [_init_connection] the two maps agree: every
    entry of [channels] is a configured name with an ID the listing gives
    it; every entry of [chan_ids] is the reverse of an entry of
    [channels]; and when no two configured names share an ID, looking a
    name up and then its ID gives the name back. *)
Theorem init_connection_maps_inverse (self self' : bot) :
  _init_connection self = Ok self' ->
  ∃ listing,
    channels_list (slack self) = Ok listing
    ∧ (∀ n i, (n, i) ∈ channels self' ->
              n ∈ dict_keys (channels self) ∧ (n, i) ∈ listing)
    ∧ (∀ i n, chan_ids self' !! i = Some n -> (n, i) ∈ channels self')
    ∧ (NoDup (dict_values (channels self')) ->
       ∀ n i, (n, i) ∈ channels self' -> chan_ids self' !! i = Some n).
Proof.
  intros H. pose proof (init_connection_registry _ _ H) as (Hkeys & _).
  unfold _init_connection in H.
  destruct (channels_list (slack self)) as [listing|[c m]].
  2:{ destruct c; try discriminate H.
      destruct (decide (m = "invalid_auth")); discriminate H. }
  destruct (init_loop (c_map_of listing) (dict_keys (channels self)) [] ∅)
    as [[ch ids]|e] eqn:Hi; [|discriminate H].
  rewrite bind_Ok in H. injection H as <-. cbn [channels chan_ids] in *.
  apply init_loop_maps_agree in Hi as (H1 & H2 & H3).
  2:{ split; [|split].
      - intros n i Hin. inversion Hin.
      - intros i n Hin. rewrite lookup_empty in Hin. discriminate Hin.
      - intros n i Hin. inversion Hin. }
  exists listing. split; [reflexivity|]. split; [|split].
  - intros n i Hin. split.
    + rewrite <- Hkeys. apply (list_elem_of_fmap_2 fst) in Hin. exact Hin.
    + apply c_map_of_Some. apply H1. exact Hin.
  - exact H2.
  - intros Hnd n i Hin. destruct (H3 n i Hin) as [n' Hn'].
    rewrite Hn'. f_equal. apply H2 in Hn'.
    apply (NoDup_snd_inj ch n' n i Hnd Hn' Hin).
Qed.

Lemma init_connection_maps_inverse_witness :
  ∃ listing,
    channels_list (slack ex_bot_configured) = Ok listing
    ∧ (∀ n i, (n, i) ∈ channels ex_bot ->
              n ∈ dict_keys (channels ex_bot_configured) ∧ (n, i) ∈ listing)
    ∧ (∀ i n, chan_ids ex_bot !! i = Some n -> (n, i) ∈ channels ex_bot)
    ∧ (NoDup (dict_values (channels ex_bot)) ->
       ∀ n i, (n, i) ∈ channels ex_bot -> chan_ids ex_bot !! i = Some n).
Proof.
  apply (init_connection_maps_inverse ex_bot_configured ex_bot).
  vm_compute. reflexivity.
Defined.

(** X3. Connecting again changes nothing: applied to the bot a
    successful [_init_connection] returned, with the service answering
    as before, [_init_connection] returns that same bot. *)
Theorem init_connection_idempotent (self self' : bot) :
  _init_connection self = Ok self' ->
  _init_connection self' = Ok self'.
Proof.
  intros H. pose proof (init_connection_registry _ _ H) as (Hkeys & _).
  unfold _init_connection in H |- *.
  destruct (channels_list (slack self)) as [listing|[c m]] eqn:Hl.
  2:{ destruct c; try discriminate H.
      destruct (decide (m = "invalid_auth")); discriminate H. }
  destruct (init_loop (c_map_of listing) (dict_keys (channels self)) [] ∅)
    as [[ch ids]|e] eqn:Hi; [|discriminate H].
  rewrite bind_Ok in H. injection H as <-. cbn [channels] in Hkeys.
  cbn [slack channels botname botnick]. rewrite Hl, Hkeys, Hi. reflexivity.
Qed.

Lemma init_connection_idempotent_witness :
  _init_connection ex_bot = Ok ex_bot.
Proof.
  apply (init_connection_idempotent ex_bot_configured ex_bot).
  vm_compute. reflexivity.
Defined.

(** ** One turn of the loop: failures, idle turns, the watermark *)

Lemma fetch_all_stamped (self : bot) (oldest : option string)
    (res : list message) (m : message) :
  _fetch_messages_since self oldest = Ok res -> m ∈ res ->
  is_Some (m !! "ts").
Proof.
  unfold _fetch_messages_since. intros H Hm.
  destruct (fetch_loop self oldest _ []) as [all_messages|e];
    [|discriminate H].
  rewrite bind_Ok in H. pose proof (filterM_kept _ _ _ _ H Hm) as Hk.
  unfold ts_differs, getitem in Hk.
  destruct (m !! "ts") as [t|]; [eauto|discriminate Hk].
Qed.

Lemma fetch_loop_answered (self : bot) (oldest : option string)
    (chans : list string) (acc r : list message) (c : string) :
  fetch_loop self oldest chans acc = Ok r -> c ∈ chans ->
  ∃ ms, channels_history (slack self) c oldest = Ok (Response true ms).
Proof.
  revert acc. induction chans as [|x chans IH]; intros acc H Hc;
    [inversion Hc|].
  cbn [fetch_loop] in H.
  destruct (channels_history (slack self) x oldest) as [[ok ms]|e] eqn:Hx;
    [|discriminate H].
  rewrite bind_Ok in H. cbn [successful body_messages] in H.
  destruct ok; [|discriminate H].
  destruct (mapM (tag_message self x) ms) as [tagged_ms|e]; [|discriminate H].
  rewrite bind_Ok in H.
  apply elem_of_cons in Hc as [->|Hc]; [eauto|].
  apply (IH _ H Hc).
Qed.

Lemma fetch_messages_since_eq (self : bot) (oldest : option string)
    (batch : string -> list message) :
  (∀ c, c ∈ dict_values (channels self) ->
        channels_history (slack self) c oldest
        = Ok (Response true (batch c))) ->
  (∀ c, c ∈ dict_values (channels self) -> is_Some (chan_ids self !! c)) ->
  (∀ c m, c ∈ dict_values (channels self) -> m ∈ batch c ->
          is_Some (m !! "ts")) ->
  _fetch_messages_since self oldest
  = Ok (dict_values (channels self)
          ≫= (fun c => filter (fresh oldest) (segment self batch c))).
Proof.
  intros Hh Hi Ht. unfold _fetch_messages_since.
  rewrite (fetch_loop_total self oldest batch _ [] Hh Hi), bind_Ok.
  cbn [app]. rewrite (filterM_total _ (fresh oldest)).
  - rewrite filter_bind. reflexivity.
  - intros m Hm. apply ts_differs_fresh.
    apply list_elem_of_bind in Hm as (c & Hm & Hc).
    unfold segment in Hm. rewrite elem_of_reverse in Hm.
    apply list_elem_of_fmap in Hm as (m0 & -> & Hm0).
    rewrite tagged_ts. eauto.
Qed.

Lemma run_loop_silent (self : bot) (reg : registry)
    (messages : list message) (ts : string) (out : list event) :
  (∀ x, x ∈ messages -> is_Some (x !! "ts")) ->
  (∀ x, x ∈ messages ->
        x !! "text" = None ∨ self_produced self x = true) ->
  ∃ ts', foldlM (run_body self reg) (ts, out) messages = Ok (ts', out).
Proof.
  revert ts. induction messages as [|x messages IH]; intros ts Hts Hq.
  - exists ts. reflexivity.
  - destruct (Hts x ltac:(left)) as [t Ht]. cbn [foldlM].
    assert (Hb : run_body self reg (ts, out) x = Ok (t, out)).
    { unfold run_body. rewrite (getitem_Some _ _ _ Ht), bind_Ok.
      cbn [snd]. rewrite dispatch_delivered.
      assert (Hd : delivered self reg x = []).
      { destruct (Hq x ltac:(left)) as [Hn|Hs].
        - unfold delivered. rewrite Hn. reflexivity.
        - apply delivered_self_produced. exact Hs. }
      rewrite Hd, app_nil_r. reflexivity. }
    rewrite Hb, bind_Ok. apply IH.
    + intros y Hy. apply Hts. right. exact Hy.
    + intros y Hy. apply Hq. right. exact Hy.
Qed.

Lemma fetch_fails_on_channel (self : bot) (oldest : option string)
    (c : string) :
  c ∈ dict_values (channels self) ->
  (∀ ms, channels_history (slack self) c oldest ≠ Ok (Response true ms)) ->
  ∃ e, _fetch_messages_since self oldest = Raise e.
Proof.
  intros Hc Hbad.
  destruct (_fetch_messages_since self oldest) as [res|e] eqn:Hf; [|eauto].
  exfalso. unfold _fetch_messages_since in Hf.
  destruct (fetch_loop self oldest (dict_values (channels self)) [])
    as [all_messages|e] eqn:Hl; [|discriminate Hf].
  destruct (fetch_loop_answered _ _ _ _ _ _ Hl Hc) as [ms Hms].
  apply (Hbad ms Hms).
Qed.

(** X4. A channel that fails makes the turn fail recoverably: when the
    answer of the service for one configured channel is an exception or
    is not successful, the fetch raises, the turn raises the recoverable
    error with the message of that failure before any handler is called,
    and [main] answers by waiting and connecting again. *)
Theorem failed_channel_is_recoverable (self : bot) (reg : registry)
    (ts : string) (out : list event) (c : string) :
  c ∈ dict_values (channels self) ->
  (∀ ms, channels_history (slack self) c (Some ts)
         ≠ Ok (Response true ms)) ->
  ∃ e0,
    _fetch_messages_since self (Some ts) = Raise e0
    ∧ run_cycle self reg ts out
      = Raise (Exn SlackardNonFatalError (message_of e0))
    ∧ main_except (Exn SlackardNonFatalError (message_of e0))
      = DelayAndReconnect.
Proof.
  intros Hc Hbad.
  destruct (fetch_fails_on_channel self (Some ts) c Hc Hbad) as [e0 He0].
  exists e0. split; [exact He0|]. split; [|reflexivity].
  unfold run_cycle. rewrite He0. reflexivity.
Qed.

Lemma failed_channel_is_recoverable_witness :
  ∃ e0,
    _fetch_messages_since ex_bot_half_down (Some "100") = Raise e0
    ∧ run_cycle ex_bot_half_down ex_registry "100" []
      = Raise (Exn SlackardNonFatalError (message_of e0))
    ∧ main_except (Exn SlackardNonFatalError (message_of e0))
      = DelayAndReconnect.
Proof.
  apply (failed_channel_is_recoverable ex_bot_half_down ex_registry "100" []
           "C2").
  - cbn. right. left.
  - intros ms H. discriminate H.
Defined.

(** X5. A fetch returns messages only when every configured channel was
    answered with a successful response: one channel that fails leaves
    nothing of what the others returned. *)
Theorem fetch_needs_every_channel (self : bot) (oldest : option string)
    (res : list message) (c : string) :
  _fetch_messages_since self oldest = Ok res ->
  c ∈ dict_values (channels self) ->
  ∃ ms, channels_history (slack self) c oldest = Ok (Response true ms).
Proof.
  unfold _fetch_messages_since. intros H Hc.
  destruct (fetch_loop self oldest (dict_values (channels self)) [])
    as [all_messages|e] eqn:Hl; [|discriminate H].
  apply (fetch_loop_answered _ _ _ _ _ _ Hl Hc).
Qed.

Lemma fetch_needs_every_channel_witness :
  ∃ ms, channels_history (slack ex_bot) "C2" (Some "100")
        = Ok (Response true ms).
Proof.
  destruct (_fetch_messages_since ex_bot (Some "100")) as [res|e] eqn:Hf.
  - apply (fetch_needs_every_channel ex_bot (Some "100") res "C2" Hf).
    cbn. right. left.
  - vm_compute in Hf. discriminate Hf.
Defined.

(** X6. An idle turn: when every channel answers, and answers with
    nothing but messages stamped with the watermark, the turn leaves the
    watermark and the effects as they were. *)
Theorem run_cycle_nothing_new (self : bot) (reg : registry) (ts : string)
    (out : list event) (batch : string -> list message) :
  (∀ c, c ∈ dict_values (channels self) ->
        channels_history (slack self) c (Some ts)
        = Ok (Response true (batch c))) ->
  (∀ c, c ∈ dict_values (channels self) -> is_Some (chan_ids self !! c)) ->
  (∀ c m, c ∈ dict_values (channels self) -> m ∈ batch c ->
          m !! "ts" = Some ts) ->
  run_cycle self reg ts out = Ok (ts, out).
Proof.
  intros Hh Hi Ht. unfold run_cycle.
  rewrite (fetch_messages_since_eq self (Some ts) batch Hh Hi)
    by (intros c m Hc Hm; rewrite (Ht c m Hc Hm); eauto).
  assert (Hnil : dict_values (channels self)
                   ≫= (fun c => filter (fresh (Some ts)) (segment self batch c))
                 = []).
  { apply elem_of_nil_inv. intros m Hm.
    apply list_elem_of_bind in Hm as (c & Hm & Hc).
    apply list_elem_of_filter in Hm as [Hf Hm].
    unfold segment in Hm. rewrite elem_of_reverse in Hm.
    apply list_elem_of_fmap in Hm as (m0 & -> & Hm0).
    apply Hf. rewrite tagged_ts. apply (Ht c m0 Hc Hm0). }
  rewrite Hnil. reflexivity.
Qed.

Lemma run_cycle_nothing_new_witness :
  run_cycle ex_bot ex_registry "200" [] = Ok ("200", []).
Proof.
  apply (run_cycle_nothing_new ex_bot ex_registry "200" [] ex_batch_200).
  - intros c Hc. cbn in Hc. each_member Hc; reflexivity.
  - intros c Hc. cbn in Hc. each_member Hc; vm_compute; eauto.
  - intros c m Hc Hm. cbn in Hc.
    each_member Hc; vm_compute in Hm; each_member Hm; vm_compute; reflexivity.
Defined.



(** X8. Messages without a text, and the bot's own messages, are
    consumed in silence: a turn that fetched only such messages adds
    nothing to the effects, and still moves the watermark on. *)
Theorem run_cycle_silent_messages (self : bot) (reg : registry) (ts : string)
    (out : list event) (messages : list message) :
  _fetch_messages_since self (Some ts) = Ok messages ->
  (∀ x, x ∈ messages ->
        x !! "text" = None ∨ self_produced self x = true) ->
  ∃ ts', run_cycle self reg ts out = Ok (ts', out)
         ∧ (∀ l m, messages = l ++ [m] -> m !! "ts" = Some ts').
Proof.
  intros Hf Hq.
  destruct (run_loop_silent self reg messages ts out) as [ts' Hl].
  - intros x Hx. apply (fetch_all_stamped _ _ _ x Hf Hx).
  - exact Hq.
  - exists ts'. unfold run_cycle. rewrite Hf. split; [exact Hl|].
    intros l m ->.
    destruct (fetch_all_stamped _ _ _ m Hf) as [t Ht].
    { apply elem_of_app. right. left. }
    destruct (run_loop_watermark_last self reg l m t ts out) as [out' Ho].
    + intros m' Hm'. apply (fetch_all_stamped _ _ _ m' Hf).
      apply elem_of_app. left. exact Hm'.
    + exact Ht.
    + rewrite Ho in Hl. injection Hl as -> _. exact Ht.
Qed.

Lemma run_cycle_silent_messages_witness :
  ∃ ts', run_cycle ex_bot_quiet ex_registry "100" [] = Ok (ts', [])
         ∧ (∀ l m,
              [tagged "C1" "general"
                 {[ "ts" := "240"; "subtype" := "channel_join" ]};
               tagged "C1" "general" ex_own_message] = l ++ [m] ->
              m !! "ts" = Some ts').
Proof.
  apply (run_cycle_silent_messages ex_bot_quiet ex_registry "100" []).
  - vm_compute. reflexivity.
  - intros x Hx. each_member Hx.
    + left. vm_compute. reflexivity.
    + right. vm_compute. reflexivity.
Defined.

(** ** The groups of the command matcher *)

Lemma skip_spaces_starts_word (s : string) :
  starts_word (skip_spaces s) = true.
Proof.
  induction s as [|c s IH]; [reflexivity|].
  cbn [skip_spaces]. destruct (is_space c) eqn:Hc; [exact IH|].
  cbn [starts_word]. rewrite Hc. reflexivity.
Qed.

Lemma line_prefix_no_newline (s : string) : no_newline (line_prefix s) = true.
Proof.
  induction s as [|c s IH]; [reflexivity|].
  cbn [line_prefix]. destruct (decide (c = "010"%char)) as [->|Hne];
    [reflexivity|].
  cbn [no_newline string_forallb].
  rewrite bool_decide_eq_false_2 by exact Hne. exact IH.
Qed.

Lemma line_prefix_starts_word (s : string) :
  starts_word s = true -> starts_word (line_prefix s) = true.
Proof.
  destruct s as [|c s]; [reflexivity|]. cbn [starts_word line_prefix].
  intros Hc. destruct (decide (c = "010"%char)); [reflexivity|].
  cbn [starts_word]. exact Hc.
Qed.

(** X9. What the command matcher extracts, the nickname holding no
    special character of regular expressions: the command is not empty
    and holds no space; the arguments hold no newline and do not begin
    with a space; and the text has the form of a command, with the
    nickname in any case at its start. *)
Theorem cmd_match_groups (nick text cmd args : string) :
  regex_literal nick = true ->
  cmd_match nick text = Some (cmd, args) ->
  cmd ≠ EmptyString
  ∧ no_space cmd = true
  ∧ no_newline args = true
  ∧ starts_word args = true
  ∧ command_form nick text cmd.
Proof.
  intros _ H. pose proof (cmd_match_form _ _ _ _ H) as Hform.
  destruct Hform as (n & ws & rest & Ht & Hn & Hws & Hne & Hns & Hr).
  split; [exact Hne|]. split; [exact Hns|].
  assert (Ha : ∃ r, args = line_prefix (skip_spaces r)).
  { unfold cmd_match in H.
    destruct (strip_prefix_ci nick text) as [[|c r0]|]; try discriminate H.
    destruct c as [[] [] [] [] [] [] [] []]; try discriminate H.
    destruct (span_nonspace (skip_spaces r0)) as [w r].
    destruct w; [discriminate H|]. injection H as _ <-. eauto. }
  destruct Ha as [r ->]. split; [apply line_prefix_no_newline|].
  split.
  - apply line_prefix_starts_word, skip_spaces_starts_word.
  - exists n, ws, rest. auto 10.
Qed.

Lemma cmd_match_groups_witness :
  no_space "ping" = true
  ∧ no_newline "extra args" = true
  ∧ starts_word "extra args" = true.
Proof.
  destruct (cmd_match_groups "slack" "SLACK:ping    extra args"
              "ping" "extra args") as (_ & H2 & H3 & H4 & _).
  - vm_compute. reflexivity.
  - vm_compute. reflexivity.
  - auto.
Defined.

(** ** Registration only appends *)

Lemma extends_refl (r : registry) : extends r r.
Proof. repeat split; reflexivity. Qed.

Lemma prefix_snoc {A : Type} (l : list A) (x : A) : l `prefix_of` l ++ [x].
Proof. exists [x]. reflexivity. Qed.

Lemma delivered_extends (self : bot) (r r' : registry) (m : message) :
  extends r r' -> delivered self r m `sublist_of` delivered self r' m.
Proof.
  intros ([ks Hs] & [kc Hc] & [kf Hf]). unfold delivered.
  destruct (m !! "text") as [text|]; [|reflexivity].
  destruct (self_produced self m); [reflexivity|].
  rewrite Hs, Hc, Hf. apply sublist_skip.
  unfold firehose_calls, subscriber_calls, parsed_command_calls.
  apply sublist_app; [|apply sublist_app].
  - rewrite fmap_app. apply sublist_inserts_r. reflexivity.
  - rewrite filter_app, fmap_app. apply sublist_inserts_r. reflexivity.
  - destruct (cmd_match (botnick self) text) as [[cmd args]|]; [|reflexivity].
    unfold command_calls. rewrite filter_app, fmap_app.
    apply sublist_inserts_r. reflexivity.
Qed.

(** X10. The three decorators only append. Applied to a function, each
    returns the wrapper of the function, leaves the entries registered
    before where they were, adds at most one entry, and removes nothing
    from what was printed; so for every message the calls made before
    the registration are still made after it, in the same order. *)
Theorem registration_only_appends (re_compile : string -> option matcher)
    (pattern command : pyval) (wrapped : callable) (w : world) :
  registers_after wrapped w (real_subscribe re_compile pattern wrapped w)
  ∧ registers_after wrapped w (real_command command wrapped w)
  ∧ registers_after wrapped w (firehose wrapped w)
  ∧ (∀ self r m,
       registers_after wrapped w r ->
       delivered self (registered w) m
       `sublist_of` delivered self (registered (fst r)) m).
Proof.
  split; [|split; [|split]].
  - unfold registers_after, real_subscribe.
    destruct (compile re_compile pattern) as [m|e]; cbn.
    + split; [reflexivity|]. split.
      * split; [apply prefix_snoc|split; reflexivity].
      * split; [reflexivity|]. rewrite length_app. cbn. lia.
    + split; [reflexivity|]. split; [apply extends_refl|].
      split; [apply prefix_snoc|lia].
  - unfold registers_after, real_command. cbn.
    split; [reflexivity|]. split.
    + split; [reflexivity|split; [apply prefix_snoc|reflexivity]].
    + split; [reflexivity|]. rewrite length_app. cbn. lia.
  - unfold registers_after, firehose. cbn.
    split; [reflexivity|]. split.
    + split; [reflexivity|split; [reflexivity|apply prefix_snoc]].
    + split; [reflexivity|]. rewrite length_app. cbn. lia.
  - intros self r m (_ & He & _). apply delivered_extends. exact He.
Qed.

(** ** [speak] *)

Lemma speak_loop_plain (answer : api) (self : bot) (lk : look)
    (attachments message : option string) (chans : list string)
    (sent : list api_call) :
  (∀ c, c ∈ chans ->
        ∃ b, answer (post self lk attachments message c) = Ok b) ->
  speak_loop answer self lk false attachments chans message sent
  = (sent ++ (post self lk attachments message <$> chans), Ok ()).
Proof.
  revert sent. induction chans as [|c chans IH]; intros sent H.
  - cbn. rewrite app_nil_r. reflexivity.
  - cbn [speak_loop]. fold (post self lk attachments message c).
    destruct (H c ltac:(left)) as [b ->].
    rewrite IH by (intros x Hx; apply H; right; exact Hx).
    rewrite fmap_cons, <- app_assoc. reflexivity.
Qed.

Lemma speak_loop_plain_stops (answer : api) (self : bot) (lk : look)
    (attachments message : option string) (l1 l2 : list string) (c : string)
    (e : exn) (sent : list api_call) :
  (∀ x, x ∈ l1 ->
        ∃ b, answer (post self lk attachments message x) = Ok b) ->
  answer (post self lk attachments message c) = Raise e ->
  speak_loop answer self lk false attachments (l1 ++ c :: l2) message sent
  = (sent ++ (post self lk attachments message <$> l1 ++ [c]), Raise e).
Proof.
  revert sent. induction l1 as [|x l1 IH]; intros sent H He.
  - cbn [app speak_loop]. fold (post self lk attachments message c).
    rewrite He. reflexivity.
  - cbn [app speak_loop]. fold (post self lk attachments message x).
    destruct (H x ltac:(left)) as [b ->].
    rewrite IH; [|intros y Hy; apply H; right; exact Hy|exact He].
    rewrite fmap_cons, <- app_assoc. reflexivity.
Qed.

(** X11. [speak] without [paste]: when a channel of the selector is
    unknown nothing is sent and the error of the resolution is raised;
    when the service accepts the requests, each resolved channel gets
    one request with the message as given and the name of the bot, no
    channel twice; and when the service refuses the request for a
    channel, that request is the last one sent and its error is
    raised. *)
Theorem speak_one_post_per_channel (answer : api) (self : bot) (lk : look)
    (message attachments : option string) (channel : selector)
    (sent : list api_call) :
  (∀ e, _resolve_channels self channel = Raise e ->
        speak answer self lk message false attachments channel sent
        = (sent, Raise e))
  ∧ (∀ ids, _resolve_channels self channel = Ok ids ->
       (∀ c, c ∈ ids ->
             ∃ b, answer (post self lk attachments message c) = Ok b) ->
       speak answer self lk message false attachments channel sent
       = (sent ++ (post self lk attachments message <$> ids), Ok ())
       ∧ NoDup ids)
  ∧ (∀ l1 c l2 e, _resolve_channels self channel = Ok (l1 ++ c :: l2) ->
       (∀ x, x ∈ l1 ->
             ∃ b, answer (post self lk attachments message x) = Ok b) ->
       answer (post self lk attachments message c) = Raise e ->
       speak answer self lk message false attachments channel sent
       = (sent ++ (post self lk attachments message <$> l1 ++ [c]),
          Raise e)).
Proof.
  split; [|split].
  - intros e Hr. unfold speak. rewrite Hr. reflexivity.
  - intros ids Hr Hok. unfold speak. rewrite Hr. split.
    + apply speak_loop_plain. exact Hok.
    + unfold _resolve_channels in Hr.
      destruct (resolve_loop self _ []) as [r|e]; [|discriminate Hr].
      rewrite bind_Ok in Hr. injection Hr as <-. apply tuple_of_set_NoDup.
  - intros l1 c l2 e Hr Hok He. unfold speak. rewrite Hr.
    apply speak_loop_plain_stops; assumption.
Qed.

Lemma speak_one_post_per_channel_witness :
  speak accepting ex_bot ex_look (Some "hi") false None SelNone []
  = ((post ex_bot ex_look None (Some "hi") <$> ["C1"; "C2"]), Ok ())
  ∧ NoDup ["C1"; "C2"].
Proof.
  destruct (speak_one_post_per_channel accepting ex_bot ex_look (Some "hi")
              None SelNone []) as (_ & H & _).
  apply (H ["C1"; "C2"]).
  - vm_compute. reflexivity.
  - intros c _. exists ∅. reflexivity.
Defined.

Lemma fences_shift (k : nat) (message : option string) :
  fences (S k) (Some (fenced message)) = fences (S (S k)) message.
Proof. unfold fences. rewrite (Nat.iter_succ_r (S k)). reflexivity. Qed.

Lemma speak_loop_paste (answer : api) (self : bot) (lk : look)
    (attachments : option string) (chans : list string)
    (message : option string) (sent : list api_call) :
  (∀ call, ∃ b, answer call = Ok b) ->
  speak_loop answer self lk true attachments chans message sent
  = (sent ++ imap (fun k c =>
                     post self lk attachments (fences (S k) message) c)
               chans,
     Ok ()).
Proof.
  intros Hok. revert message sent.
  induction chans as [|c chans IH]; intros message sent.
  - cbn. rewrite app_nil_r. reflexivity.
  - cbn [speak_loop].
    destruct (Hok (ChatPostMessage c (Some (fenced message)) (botname self)
                     (botemoji lk) (boticon lk) attachments)) as [b ->].
    rewrite IH, imap_cons, <- app_assoc. cbn [app]. f_equal. f_equal.
    f_equal. apply imap_ext. intros k x _. unfold compose.
    rewrite fences_shift. reflexivity.
Qed.

(** X12. [speak] with [paste], the service accepting the requests: the
    message is fenced anew for every channel, so the request for the
    channel at place [k] of the resolved tuple carries the message inside
    [k + 1] pairs of fences; only the first channel gets the message
    fenced once. *)
Theorem speak_paste_fences_pile_up (answer : api) (self : bot) (lk : look)
    (message attachments : option string) (channel : selector)
    (sent : list api_call) (ids : list string) :
  _resolve_channels self channel = Ok ids ->
  (∀ call, ∃ b, answer call = Ok b) ->
  speak answer self lk message true attachments channel sent
  = (sent ++ imap (fun k c =>
                     post self lk attachments (fences (S k) message) c)
               ids,
     Ok ()).
Proof.
  intros Hr Hok. unfold speak. rewrite Hr. apply speak_loop_paste. exact Hok.
Qed.

Lemma speak_paste_fences_pile_up_witness :
  speak accepting ex_bot ex_look (Some "x = 1") true None SelNone []
  = ([post ex_bot ex_look None (Some "```x = 1```") "C1";
      post ex_bot ex_look None (Some "``````x = 1``````") "C2"],
     Ok ()).
Proof.
  rewrite (speak_paste_fences_pile_up accepting ex_bot ex_look (Some "x = 1")
             None SelNone [] ["C1"; "C2"]).
  - reflexivity.
  - vm_compute. reflexivity.
  - intros call. exists ∅. reflexivity.
Defined.

(** ** [set_topic] and [channel_info] *)

Lemma tuple_of_set_twice (i : string) : tuple_of_set [i; i] = [i].
Proof.
  unfold tuple_of_set. cbn [list_to_set foldr].
  rewrite (right_id_L ∅ (∪)), (idemp_L (∪)). apply elements_singleton.
Qed.

Lemma tuple_of_set_two (i j : string) :
  i ≠ j -> length (tuple_of_set [i; j]) ≠ 1.
Proof.
  intros Hne Hl.
  destruct (tuple_of_set [i; j]) as [|a [|b r]] eqn:E; try discriminate Hl.
  assert (Hi : i ∈ [a]) by (rewrite <- E; apply elem_of_tuple_of_set; left).
  assert (Hj : j ∈ [a])
    by (rewrite <- E; apply elem_of_tuple_of_set; right; left).
  apply list_elem_of_singleton in Hi, Hj. congruence.
Qed.

Lemma resolve_name_and_id (self : bot) (n i : string) :
  resolve_one self n = Some i -> resolve_one self i = Some i ->
  _resolve_channels self (SelList [n; i]) = Ok [i].
Proof.
  intros Hn Hi. unfold _resolve_channels. rewrite resolve_loop_known.
  - rewrite bind_Ok. cbn [app omap list_omap]. rewrite Hn, Hi.
    rewrite tuple_of_set_twice. reflexivity.
  - intros c Hc. each_member Hc; eauto.
Qed.

Lemma resolve_two_names (self : bot) (n1 n2 i1 i2 : string) :
  resolve_one self n1 = Some i1 -> resolve_one self n2 = Some i2 ->
  i1 ≠ i2 ->
  ∃ ids, _resolve_channels self (SelList [n1; n2]) = Ok ids
         ∧ length ids ≠ 1.
Proof.
  intros H1 H2 Hne. exists (tuple_of_set [i1; i2]). split.
  - unfold _resolve_channels. rewrite resolve_loop_known.
    + rewrite bind_Ok. cbn [app omap list_omap]. rewrite H1, H2. reflexivity.
    + intros c Hc. each_member Hc; eauto.
  - apply tuple_of_set_two. exact Hne.
Qed.

(** X13. [set_topic] and [channel_info] take one channel after
    de-duplication: given the name of a channel together with its own
    ID they send one request, for that ID; given two identifiers that
    resolve to different IDs they send nothing and raise the recoverable
    error. *)
Theorem topic_and_info_take_one_channel (answer : api) (self : bot)
    (topic : string) (sent : list api_call) :
  (∀ n i, resolve_one self n = Some i -> resolve_one self i = Some i ->
     set_topic answer self topic (SelList [n; i]) sent
     = (sent ++ [ChannelsSetTopic i topic],
        answer (ChannelsSetTopic i topic) ≫= fun _ => Ok ())
     ∧ fst (channel_info answer self (SelList [n; i]) sent)
       = sent ++ [ChannelsInfo i])
  ∧ (∀ n1 n2 i1 i2,
       resolve_one self n1 = Some i1 -> resolve_one self n2 = Some i2 ->
       i1 ≠ i2 ->
       set_topic answer self topic (SelList [n1; n2]) sent
       = (sent, Raise (Exn SlackardNonFatalError
                         "set_topic only accepts 1 channel"))
       ∧ channel_info answer self (SelList [n1; n2]) sent
         = (sent, Raise (Exn SlackardNonFatalError
                           "channel_info only accepts 1 channel"))).
Proof.
  split.
  - intros n i Hn Hi. unfold set_topic, channel_info.
    rewrite (resolve_name_and_id self n i Hn Hi). split; reflexivity.
  - intros n1 n2 i1 i2 H1 H2 Hne. unfold set_topic, channel_info.
    destruct (resolve_two_names self n1 n2 i1 i2 H1 H2 Hne)
      as (ids & -> & Hl).
    rewrite !bind_Ok. unfold only_channel.
    rewrite !decide_True by exact Hl. split; reflexivity.
Qed.

Lemma topic_and_info_take_one_channel_witness :
  set_topic accepting ex_bot "release day" (SelList ["general"; "C1"]) []
  = ([ChannelsSetTopic "C1" "release day"], Ok ())
  ∧ set_topic accepting ex_bot "release day" SelNone []
    = ([], Raise (Exn SlackardNonFatalError
                    "set_topic only accepts 1 channel")).
Proof.
  destruct (topic_and_info_take_one_channel accepting ex_bot "release day" [])
    as [H1 H2]. split.
  - apply (H1 "general" "C1"); vm_compute; reflexivity.
  - vm_compute. reflexivity.
Defined.

(** ** The configured channel names *)

Lemma split_comma_cons (s : string) : ∃ h t, split_comma s = h :: t.
Proof.
  induction s as [|c s (h & t & IH)]; [exists EmptyString, []; reflexivity|].
  cbn [split_comma]. destruct (decide (c = ","%char)); [eauto|].
  rewrite IH. eauto.
Qed.

Lemma join_comma_cons (x : string) (h : string) (t : list string) :
  join_comma (x :: h :: t) = x +:+ "," +:+ join_comma (h :: t).
Proof. reflexivity. Qed.

Lemma join_split_comma (s : string) : join_comma (split_comma s) = s.
Proof.
  induction s as [|c s IH]; [reflexivity|]. cbn [split_comma].
  destruct (split_comma_cons s) as (h & t & Hs). rewrite Hs in IH |- *.
  destruct (decide (c = ","%char)) as [->|Hne].
  - rewrite join_comma_cons, IH. reflexivity.
  - destruct t as [|h' t].
    + cbn in IH |- *. rewrite IH. reflexivity.
    + rewrite join_comma_cons in IH |- *. rewrite append_cons, IH.
      reflexivity.
Qed.

Lemma split_comma_no_comma (s x : string) :
  x ∈ split_comma s -> no_comma x = true.
Proof.
  revert x. induction s as [|c s IH]; intros x Hx.
  - apply list_elem_of_singleton in Hx as ->. reflexivity.
  - cbn [split_comma] in Hx. destruct (decide (c = ","%char)) as [->|Hne].
    + apply elem_of_cons in Hx as [->|Hx]; [reflexivity|apply IH; exact Hx].
    + destruct (split_comma_cons s) as (h & t & Hs). rewrite Hs in Hx, IH.
      apply elem_of_cons in Hx as [->|Hx].
      * cbn [no_comma string_forallb].
        rewrite bool_decide_eq_false_2 by exact Hne. cbn [negb andb].
        apply IH. left.
      * apply IH. right. exact Hx.
Qed.

Lemma skip_spaces_forallb (p : ascii -> bool) (s : string) :
  string_forallb p s = true -> string_forallb p (skip_spaces s) = true.
Proof.
  induction s as [|c s IH]; [reflexivity|]. cbn [skip_spaces string_forallb].
  intros H. apply andb_true_iff in H as [Hc Hs].
  destruct (is_space c); [apply IH; exact Hs|].
  cbn [string_forallb]. rewrite Hc, Hs. reflexivity.
Qed.

Lemma rstrip_forallb (p : ascii -> bool) (s : string) :
  string_forallb p s = true -> string_forallb p (rstrip s) = true.
Proof.
  induction s as [|c s IH]; [reflexivity|]. cbn [rstrip string_forallb].
  intros H. apply andb_true_iff in H as [Hc Hs]. specialize (IH Hs).
  destruct (rstrip s) as [|c' r].
  - destruct (is_space c); [reflexivity|].
    cbn [string_forallb]. rewrite Hc. reflexivity.
  - cbn [string_forallb] in IH |- *. rewrite Hc, IH. reflexivity.
Qed.

Lemma rstrip_ends_nonspace (s : string) : ends_nonspace (rstrip s) = true.
Proof.
  induction s as [|c s IH]; [reflexivity|]. cbn [rstrip].
  destruct (rstrip s) as [|c' r].
  - destruct (is_space c) eqn:Hc; [reflexivity|].
    cbn [ends_nonspace]. rewrite Hc. reflexivity.
  - exact IH.
Qed.

Lemma rstrip_starts_word (s : string) :
  starts_word s = true -> starts_word (rstrip s) = true.
Proof.
  destruct s as [|c s]; [reflexivity|]. cbn [starts_word rstrip].
  intros Hc. destruct (rstrip s); [|exact Hc].
  destruct (is_space c) eqn:E; [reflexivity|].
  cbn [starts_word]. rewrite E. reflexivity.
Qed.

(** X14. The names of the configuration: an entry without comma is one
    name, kept as it is written, spaces included; an entry with a comma
    is cut at its commas into pieces that hold no comma and that joined
    by commas are the entry, and the names are exactly the pieces
    stripped, every one of them and nothing else, so that no name begins
    or ends with a space or holds a comma; and in both cases no name is
    kept twice. *)
Theorem configured_channel_names (channel : string) :
  (has_comma channel = false -> configured_keys channel = [channel])
  ∧ (has_comma channel = true ->
     join_comma (split_comma channel) = channel
     ∧ (∀ piece, piece ∈ split_comma channel -> no_comma piece = true)
     ∧ (∀ n, n ∈ configured_keys channel
             ↔ ∃ piece, piece ∈ split_comma channel ∧ n = strip piece)
     ∧ ∀ n, n ∈ configured_keys channel ->
            starts_word n = true
            ∧ ends_nonspace n = true
            ∧ no_comma n = true)
  ∧ NoDup (configured_keys channel).
Proof.
  unfold configured_keys, channel_names. split; [|split].
  - intros ->. reflexivity.
  - intros ->. split; [apply join_split_comma|].
    split; [intros piece Hp; apply (split_comma_no_comma _ _ Hp)|].
    assert (Hiff : ∀ n, n ∈ remove_dups (strip <$> split_comma channel)
                        ↔ ∃ piece, piece ∈ split_comma channel
                                   ∧ n = strip piece).
    { intros n. rewrite elem_of_remove_dups, list_elem_of_fmap.
      split; intros (piece & H1 & H2); exists piece; auto. }
    split; [exact Hiff|]. intros n Hn.
    apply Hiff in Hn as (piece & Hp & ->). unfold strip. split; [|split].
    + apply rstrip_starts_word, skip_spaces_starts_word.
    + apply rstrip_ends_nonspace.
    + apply rstrip_forallb, skip_spaces_forallb.
      apply (split_comma_no_comma _ _ Hp).
  - apply NoDup_remove_dups.
Qed.

Lemma configured_channel_names_witness :
  configured_keys " general" = [" general"]
  ∧ join_comma (split_comma "general, random ,general")
    = "general, random ,general"
  ∧ "random" ∈ configured_keys "general, random ,general".
Proof.
  destruct (configured_channel_names " general") as (H1 & _ & _).
  destruct (configured_channel_names "general, random ,general")
    as (_ & H2 & _).
  destruct (H2 eq_refl) as (Hj & _ & Hiff & _).
  split; [apply H1; reflexivity|]. split; [exact Hj|].
  apply Hiff. exists " random ". split; [|reflexivity].
  vm_compute. right. left.
Defined.

(** ** The first watermark *)

Lemma ltb_false_trans (a b c : string) :
  String.ltb b a = false -> String.ltb c b = false -> String.ltb c a = false.
Proof.
  unfold String.ltb. intros Hba Hcb.
  destruct (String.compare c a) eqn:Hca; try reflexivity. exfalso.
  destruct (String.compare b a) eqn:Eba; try discriminate Hba.
  - apply String_as_OT.cmp_eq in Eba as ->. rewrite Hca in Hcb.
    discriminate Hcb.
  - pose proof (String_as_OT.cmp_antisym a b) as Hanti.
    unfold String_as_OT.cmp in Hanti. rewrite Eba in Hanti. cbn in Hanti.
    apply String_as_OT.cmp_lt in Hca, Hanti.
    pose proof (String_as_OT.lt_trans _ _ _ Hca Hanti) as Hlt.
    apply String_as_OT.cmp_lt in Hlt. unfold String_as_OT.cmp in Hlt.
    rewrite Hlt in Hcb. discriminate Hcb.
Qed.

Lemma str_max_cases (a b : string) :
  (str_max a b = a ∨ str_max a b = b)
  ∧ String.ltb (str_max a b) a = false
  ∧ String.ltb (str_max a b) b = false.
Proof.
  unfold str_max. destruct (String.ltb a b) eqn:Hab.
  - split; [right; reflexivity|]. split; [|apply ltb_irrefl].
    unfold String.ltb in *. rewrite String.compare_antisym.
    destruct (String.compare a b); try discriminate Hab. reflexivity.
  - split; [left; reflexivity|]. split; [apply ltb_irrefl|exact Hab].
Qed.

Lemma foldl_str_max (l : list string) (t : string) :
  foldl str_max t l ∈ t :: l
  ∧ ∀ x, x ∈ t :: l -> String.ltb (foldl str_max t l) x = false.
Proof.
  revert t. induction l as [|y l IH]; intros t.
  - cbn. split; [left|]. intros x Hx.
    apply list_elem_of_singleton in Hx as ->. apply ltb_irrefl.
  - cbn [foldl]. destruct (IH (str_max t y)) as [Hin Hmax].
    destruct (str_max_cases t y) as (Hc & Ht & Hy). split.
    + apply elem_of_cons in Hin as [->|Hin].
      * destruct Hc as [->| ->]; [left|right; left].
      * right. right. exact Hin.
    + intros x Hx. specialize (Hmax (str_max t y) ltac:(left)).
      apply elem_of_cons in Hx as [->|Hx];
        [apply (ltb_false_trans _ _ _ Ht Hmax)|].
      apply elem_of_cons in Hx as [->|Hx];
        [apply (ltb_false_trans _ _ _ Hy Hmax)|].
      apply IH. right. exact Hx.
Qed.

Lemma max_ts_largest (l : list string) (t : string) :
  max_ts l = Some t -> t ∈ l ∧ ∀ x, x ∈ l -> String.ltb t x = false.
Proof.
  destruct l as [|a l]; [discriminate|]. intros [= <-].
  apply foldl_str_max.
Qed.

Lemma mapM_Ok_elem_of {A B : Type} (f : A -> result B) (l : list A)
    (r : list B) :
  mapM f l = Ok r ->
  (∀ y, y ∈ r -> ∃ x, x ∈ l ∧ f x = Ok y)
  ∧ (∀ x, x ∈ l -> ∃ y, y ∈ r ∧ f x = Ok y).
Proof.
  revert r. induction l as [|a l IH]; intros r H.
  - injection H as <-. split; intros z Hz; inversion Hz.
  - cbn [mapM] in H. destruct (f a) as [b|e] eqn:Ha; [|discriminate H].
    rewrite bind_Ok in H. destruct (mapM f l) as [r'|e]; [|discriminate H].
    rewrite bind_Ok in H. injection H as <-.
    destruct (IH r' eq_refl) as [H1 H2]. split.
    + intros y Hy. apply elem_of_cons in Hy as [->|Hy].
      * exists a. split; [left|exact Ha].
      * destruct (H1 y Hy) as (x & Hx & Hfx). exists x.
        split; [right; exact Hx|exact Hfx].
    + intros x Hx. apply elem_of_cons in Hx as [->|Hx].
      * exists b. split; [left|exact Ha].
      * destruct (H2 x Hx) as (y & Hy & Hfx). exists y.
        split; [right; exact Hy|exact Hfx].
Qed.

Lemma mapM_total {A B : Type} (f : A -> result B) (l : list A) :
  (∀ x, x ∈ l -> ∃ y, f x = Ok y) -> ∃ r, mapM f l = Ok r.
Proof.
  induction l as [|a l IH]; intros H; [exists []; reflexivity|].
  destruct (H a ltac:(left)) as [b Hb].
  destruct IH as [r Hr]; [intros x Hx; apply H; right; exact Hx|].
  exists (b :: r). cbn [mapM]. rewrite Hb, bind_Ok, Hr. reflexivity.
Qed.

Lemma mapM_newest_stamp_raises (hs : list response) (h : response) :
  h ∈ hs -> newest_stamp h = Raise (Exn OtherException "IndexError") ->
  mapM newest_stamp hs = Raise (Exn OtherException "IndexError").
Proof.
  induction hs as [|a hs IH]; intros Hin Hh; [inversion Hin|].
  cbn [mapM]. destruct (newest_stamp a) as [s|e] eqn:Ha.
  - rewrite bind_Ok. apply elem_of_cons in Hin as [->|Hin]; [congruence|].
    rewrite (IH Hin Hh). reflexivity.
  - unfold newest_stamp in Ha. destruct (successful a); [|discriminate Ha].
    destruct (body_messages a); [|discriminate Ha]. injection Ha as <-.
    reflexivity.
Qed.

(** X15. The watermark [run] starts with is the largest of the
    timestamps of the newest messages of the configured channels: it is
    the timestamp of the newest message of one of them, and no channel's
    newest message has a larger one. *)
Theorem first_watermark_is_largest (latest : string -> result response)
    (self : bot) (t : string) :
  first_watermark latest self = Ok (Stamp t) ->
  (∃ c m ms, c ∈ dict_values (channels self)
             ∧ latest c = Ok (Response true (m :: ms))
             ∧ m !! "ts" = Some t)
  ∧ (∀ c m ms t', c ∈ dict_values (channels self) ->
       latest c = Ok (Response true (m :: ms)) ->
       m !! "ts" = Some t' ->
       String.ltb t t' = false).
Proof.
  unfold first_watermark. intros H.
  destruct (mapM latest (dict_values (channels self))) as [hs|e] eqn:Hhs;
    [|discriminate H].
  rewrite bind_Ok in H.
  destruct (mapM newest_stamp hs) as [stamps|e] eqn:Hst; [|discriminate H].
  rewrite bind_Ok in H.
  destruct (max_ts (omap id stamps)) as [ts|] eqn:Hmax; [|discriminate H].
  destruct (decide (ts = EmptyString)); [discriminate H|].
  injection H as ->.
  apply max_ts_largest in Hmax as [Hin Hle].
  apply mapM_Ok_elem_of in Hhs as [Hhs1 Hhs2].
  apply mapM_Ok_elem_of in Hst as [Hst1 Hst2]. split.
  - apply list_elem_of_omap in Hin as (s & Hs & Hid). cbn in Hid. subst s.
    destruct (Hst1 _ Hs) as (h & Hh & Hn).
    destruct (Hhs1 _ Hh) as (c & Hc & Hl).
    unfold newest_stamp in Hn. destruct h as [ok ms]. cbn in Hn.
    destruct ok; [|discriminate Hn]. destruct ms as [|m ms];
      [discriminate Hn|].
    injection Hn as Hn. exists c, m, ms. auto.
  - intros c m ms t' Hc Hl Ht'.
    destruct (Hhs2 c Hc) as (h & Hh & Hl').
    rewrite Hl in Hl'. injection Hl' as <-.
    destruct (Hst2 _ Hh) as (s & Hs & Hn). cbn in Hn. rewrite Ht' in Hn.
    injection Hn as <-. apply Hle.
    apply list_elem_of_omap. exists (Some t'). split; [exact Hs|reflexivity].
Qed.

Lemma first_watermark_is_largest_witness :
  (∃ c m ms, c ∈ dict_values (channels ex_bot)
             ∧ ex_latest c = Ok (Response true (m :: ms))
             ∧ m !! "ts" = Some "200")
  ∧ (∀ c m ms t', c ∈ dict_values (channels ex_bot) ->
       ex_latest c = Ok (Response true (m :: ms)) ->
       m !! "ts" = Some t' ->
       String.ltb "200" t' = false).
Proof.
  apply (first_watermark_is_largest ex_latest ex_bot "200").
  vm_compute. reflexivity.
Defined.

(** X16. A configured channel without any message stops the bot at its
    start: when the service answers every channel and the answer for one
    of them is successful and empty, the computation of the first
    watermark raises [IndexError], which [main] takes for an unhandled
    exception. *)
Theorem first_watermark_empty_channel (latest : string -> result response)
    (self : bot) (c : string) :
  (∀ x, x ∈ dict_values (channels self) -> ∃ h, latest x = Ok h) ->
  c ∈ dict_values (channels self) ->
  latest c = Ok (Response true []) ->
  first_watermark latest self = Raise (Exn OtherException "IndexError")
  ∧ main_except (Exn OtherException "IndexError") = SysExit 1.
Proof.
  intros Hall Hc Hl. split; [|reflexivity]. unfold first_watermark.
  destruct (mapM_total latest _ Hall) as [hs Hhs]. rewrite Hhs, bind_Ok.
  apply mapM_Ok_elem_of in Hhs as [_ Hhs2].
  destruct (Hhs2 c Hc) as (h & Hh & Hl'). rewrite Hl in Hl'.
  injection Hl' as <-.
  rewrite (mapM_newest_stamp_raises hs _ Hh eq_refl). reflexivity.
Qed.

Lemma first_watermark_empty_channel_witness :
  first_watermark (fun c => Ok (Response true (take 1 (stored [("C1", [msg "200" "Hello there"])] c))))
    ex_bot
  = Raise (Exn OtherException "IndexError")
  ∧ main_except (Exn OtherException "IndexError") = SysExit 1.
Proof.
  apply (first_watermark_empty_channel _ ex_bot "C2").
  - intros x _. eauto.
  - cbn. right. left.
  - reflexivity.
Defined.

(** ** [main] *)

(** X17. After a recoverable error [main] connects again outside of any
    handler: when that connection succeeds the loop goes round with the
    bot it returned, and when it fails the exception leaves [main]
    uncaught, also when it is itself the recoverable error of a listing
    that could not be reached. *)
Theorem main_reconnect_not_guarded (self : bot) (e : exn) :
  cls e = SlackardNonFatalError ->
  (∀ self', _init_connection self = Ok self' ->
            main_handle self e = Again self')
  ∧ (∀ e', _init_connection self = Raise e' ->
           main_handle self e = Uncaught e')
  ∧ (∀ c msg, channels_list (slack self) = Raise (Exn c msg) ->
              c ≠ SlackerError ->
              main_handle self e
              = Uncaught (Exn SlackardNonFatalError msg)).
Proof.
  intros He.
  assert (Hm : main_except e = DelayAndReconnect).
  { unfold main_except. rewrite He. reflexivity. }
  unfold main_handle. rewrite Hm. split; [|split].
  - intros self' ->. reflexivity.
  - intros e' ->. reflexivity.
  - intros c msg Hl Hc. unfold _init_connection. rewrite Hl.
    destruct c; try reflexivity. congruence.
Qed.

Lemma main_reconnect_not_guarded_witness :
  main_handle (ex_bot_with (failing_service (Exn OtherException "timed out")))
    (Exn SlackardNonFatalError "timed out")
  = Uncaught (Exn SlackardNonFatalError "timed out").
Proof.
  destruct (main_reconnect_not_guarded
              (ex_bot_with (failing_service (Exn OtherException "timed out")))
              (Exn SlackardNonFatalError "timed out") eq_refl)
    as (_ & _ & H).
  apply (H OtherException "timed out"); [reflexivity|discriminate].
Defined.

(** ** The plugin directory *)

Lemma get_plugin_path_total (realpath : string -> string)
    (cfg : plugin_config) :
  plugins cfg ≠ EmptyString -> ∃ path, _get_plugin_path realpath cfg = Ok path.
Proof.
  intros Hne. unfold _get_plugin_path.
  destruct (plugins cfg) as [|c r]; [congruence|].
  destruct (is_slash c); eauto.
Qed.

Lemma set_import_path_eq (realpath : string -> string) (cfg : plugin_config)
    (sys_path : list string) (path : string) :
  _get_plugin_path realpath cfg = Ok path ->
  _set_import_path realpath cfg sys_path
  = Ok (if decide (dirname path ∈ sys_path) then sys_path
        else dirname path :: sys_path).
Proof.
  intros Hp. unfold _set_import_path. rewrite Hp, bind_Ok.
  destruct (decide (dirname path ∈ sys_path)); reflexivity.
Qed.

(** X18. [_set_import_path] fails only on an empty [plugins] entry, with
    [IndexError]. Otherwise it leaves [sys.path] with the directory above
    the plugins in it, puts that directory in front when it was not
    there, keeps every entry that was there in its place, and a second
    call changes nothing more. *)
Theorem set_import_path_once (realpath : string -> string)
    (cfg : plugin_config) (sys_path : list string) :
  (plugins cfg = EmptyString ->
   _set_import_path realpath cfg sys_path
   = Raise (Exn OtherException "IndexError"))
  ∧ (plugins cfg ≠ EmptyString ->
     ∃ path sys_path',
       _get_plugin_path realpath cfg = Ok path
       ∧ _set_import_path realpath cfg sys_path = Ok sys_path'
       ∧ dirname path ∈ sys_path'
       ∧ (dirname path ∈ sys_path -> sys_path' = sys_path)
       ∧ (dirname path ∉ sys_path -> sys_path' = dirname path :: sys_path)
       ∧ sys_path `suffix_of` sys_path'
       ∧ _set_import_path realpath cfg sys_path' = Ok sys_path').
Proof.
  split.
  - intros He. unfold _set_import_path, _get_plugin_path. rewrite He.
    reflexivity.
  - intros Hne. destruct (get_plugin_path_total realpath cfg Hne) as [path Hp].
    destruct (decide (dirname path ∈ sys_path)) as [Hin|Hnin].
    + exists path, sys_path. split; [exact Hp|].
      rewrite (set_import_path_eq _ _ _ _ Hp), decide_True by exact Hin.
      split; [reflexivity|]. split; [exact Hin|]. split; [reflexivity|].
      split; [contradiction|]. split; reflexivity.
    + exists path, (dirname path :: sys_path). split; [exact Hp|].
      rewrite !(set_import_path_eq _ _ _ _ Hp).
      rewrite decide_False by exact Hnin. rewrite decide_True by left.
      split; [reflexivity|]. split; [left|]. split; [contradiction|].
      split; [reflexivity|]. split; [apply suffix_cons_r|]; reflexivity.
Qed.

Lemma set_import_path_once_witness :
  ∃ path sys_path',
    _get_plugin_path (fun p => p) ex_plugin_config = Ok path
    ∧ _set_import_path (fun p => p) ex_plugin_config ["/usr/lib/python2.7"]
      = Ok sys_path'
    ∧ dirname path ∈ sys_path'
    ∧ (dirname path ∈ ["/usr/lib/python2.7"] ->
       sys_path' = ["/usr/lib/python2.7"])
    ∧ (dirname path ∉ ["/usr/lib/python2.7"] ->
       sys_path' = [dirname path; "/usr/lib/python2.7"])
    ∧ ["/usr/lib/python2.7"] `suffix_of` sys_path'
    ∧ _set_import_path (fun p => p) ex_plugin_config sys_path' = Ok sys_path'.
Proof.
  destruct (set_import_path_once (fun p => p) ex_plugin_config
              ["/usr/lib/python2.7"]) as [_ H].
  apply H. discriminate.
Defined.

Lemma import_loop_names (import_module : importer) (plugin_prefix : string)
    (files : list string) (st : loader) :
  fst <$> imports (import_loop import_module plugin_prefix files st)
  = (fst <$> imports st) ++ (module_name plugin_prefix <$> files).
Proof.
  revert st. induction files as [|f files IH]; intros st.
  - cbn. rewrite app_nil_r. reflexivity.
  - cbn [import_loop]. cbv zeta.
    destruct (import_module (module_name plugin_prefix f) (loaded st))
      as [w r].
    rewrite IH. cbn [imports]. rewrite fmap_app, <- app_assoc. reflexivity.
Qed.

Lemma import_loop_failures (import_module : importer) (plugin_prefix : string)
    (files : list string) (st : loader) (name : string) (e : exn) :
  (name, Some e) ∈ imports (import_loop import_module plugin_prefix files st) ->
  (name, Some e) ∈ imports st
  ∨ ∃ w, snd (import_module name w) = Raise e.
Proof.
  revert st. induction files as [|f files IH]; intros st H; [left; exact H|].
  cbn [import_loop] in H. cbv zeta in H. revert H.
  destruct (import_module (module_name plugin_prefix f) (loaded st))
    as [w r] eqn:Hi.
  intros H. apply IH in H as [H|H]; [|right; exact H]. cbn [imports] in H.
  apply elem_of_app in H as [H|H]; [left; exact H|].
  apply list_elem_of_singleton in H. destruct r; [discriminate H|].
  injection H as -> ->. right. exists (loaded st). rewrite Hi. reflexivity.
Qed.

(** X19. Loading the plugins: with a [plugins] entry that is not empty
    and a package that imports, [_import_plugins] raises nothing; it
    tries every file the pattern finds, once, in the order found, under
    the name of the package, a dot and the file name without its last
    three characters, whatever the imports before it did; and every
    failure it notes is an exception the import of that module raised. *)
Theorem import_plugins_tries_every_file (realpath : string -> string)
    (glob : string -> list string) (import_module : importer)
    (cfg : plugin_config) (sys_path : list string) (w w1 : world) :
  plugins cfg ≠ EmptyString ->
  import_module (basename (plugins cfg)) w = (w1, Ok ()) ->
  ∃ path sys_path' st,
    _get_plugin_path realpath cfg = Ok path
    ∧ _import_plugins realpath glob import_module cfg sys_path w
      = Ok (sys_path', st)
    ∧ fst <$> imports st
      = module_name (basename (plugins cfg))
          <$> glob (path +:+ "/[!_]*.py")
    ∧ ∀ name e, (name, Some e) ∈ imports st ->
                ∃ w', snd (import_module name w') = Raise e.
Proof.
  intros Hne Hpkg.
  destruct (get_plugin_path_total realpath cfg Hne) as [path Hp].
  assert (Hs : ∃ sp, _set_import_path realpath cfg sys_path = Ok sp).
  { unfold _set_import_path. rewrite Hp, bind_Ok.
    destruct (decide (dirname path ∈ sys_path)); eauto. }
  destruct Hs as [sp Hs].
  exists path, sp,
    (import_loop import_module (basename (plugins cfg))
       (glob (path +:+ "/[!_]*.py")) (Loader w1 [])).
  split; [exact Hp|]. split; [|split].
  - unfold _import_plugins. rewrite Hs, bind_Ok, Hpkg, Hp. reflexivity.
  - rewrite import_loop_names. reflexivity.
  - intros name e Hin. apply import_loop_failures in Hin as [Hin|Hin];
      [inversion Hin|exact Hin].
Qed.

Lemma import_plugins_tries_every_file_witness :
  ∃ path sys_path' st,
    _get_plugin_path (fun p => p) ex_plugin_config = Ok path
    ∧ _import_plugins (fun p => p)
        (fun _ => ["/etc/slackard/myplugins/broken.py";
                   "/etc/slackard/myplugins/greet.py"])
        ex_importer ex_plugin_config [] (World ex_registry [])
      = Ok (sys_path', st)
    ∧ fst <$> imports st
      = module_name (basename (plugins ex_plugin_config))
          <$> ["/etc/slackard/myplugins/broken.py";
               "/etc/slackard/myplugins/greet.py"]
    ∧ ∀ name e, (name, Some e) ∈ imports st ->
                ∃ w', snd (ex_importer name w') = Raise e.
Proof.
  apply (import_plugins_tries_every_file (fun p => p)
           (fun _ => ["/etc/slackard/myplugins/broken.py";
                      "/etc/slackard/myplugins/greet.py"])
           ex_importer ex_plugin_config [] (World ex_registry [])
           (World ex_registry [])).
  - discriminate.
  - vm_compute. reflexivity.
Defined.

(** The example: the broken plugin is noted, the plugin after it is
    loaded and has registered its handler. *)
Example import_plugins_example :
  match
    _import_plugins (fun p => p)
      (fun _ => ["/etc/slackard/myplugins/broken.py";
                 "/etc/slackard/myplugins/greet.py"])
      ex_importer ex_plugin_config [] (World ex_registry [])
  with
  | Ok (sys_path', st) =>
      sys_path' = ["/etc/slackard/."]
      ∧ imports st
        = [("myplugins.broken", Some (Exn OtherException "SyntaxError"));
           ("myplugins.greet", None)]
      ∧ firehoses (registered (loaded st))
        = [Wrapper (Plugin "log"); Wrapper (Plugin "greet")]
  | Raise _ => False
  end.
Proof. vm_compute. repeat split; reflexivity. Qed.

Lemma cut_last_slash_no_slash (n : string) :
  no_slash n = true -> cut_last_slash n = (EmptyString, n).
Proof.
  induction n as [|c n IH]; [reflexivity|].
  cbn [no_slash string_forallb]. intros H.
  apply andb_true_iff in H as [Hc Hn]. cbn [cut_last_slash].
  rewrite (IH Hn). apply negb_true_iff in Hc. rewrite Hc. reflexivity.
Qed.

Lemma cut_last_slash_app (d n : string) :
  no_slash n = true ->
  cut_last_slash (d +:+ "/" +:+ n) = (d +:+ "/", n).
Proof.
  intros Hn. induction d as [|c d IH].
  - rewrite !append_nil, append_cons, append_nil. cbn [cut_last_slash].
    rewrite (cut_last_slash_no_slash n Hn). reflexivity.
  - change (String c d +:+ "/" +:+ n) with (String c (d +:+ "/" +:+ n)).
    change (String c d +:+ "/") with (String c (d +:+ "/")).
    cbn [cut_last_slash]. rewrite IH. destruct d; reflexivity.
Qed.

Lemma basename_app (d n : string) :
  no_slash n = true -> basename (d +:+ "/" +:+ n) = n.
Proof.
  intros Hn. unfold basename, path_split.
  rewrite (cut_last_slash_app d n Hn).
  destruct (string_forallb is_slash (d +:+ "/")); reflexivity.
Qed.

Lemma substring_prefix (a b : string) :
  String.substring 0 (String.length a) (a +:+ b) = a.
Proof.
  induction a as [|c a IH].
  - rewrite append_nil. destruct b; reflexivity.
  - rewrite append_cons. cbn [String.length String.substring].
    rewrite IH. reflexivity.
Qed.

Lemma drop_last3_py (n : string) : drop_last3 (n +:+ ".py") = n.
Proof.
  unfold drop_last3.
  assert (Hl : String.length (n +:+ ".py") - 3 = String.length n).
  { induction n as [|c n IH]; [reflexivity|].
    rewrite append_cons. cbn [String.length].
    assert (3 <= String.length (n +:+ ".py")).
    { clear IH. induction n as [|c' n IH]; [rewrite append_nil; cbn; lia|].
      rewrite append_cons. cbn [String.length]. lia. }
    lia. }
  rewrite Hl. apply substring_prefix.
Qed.

Lemma no_slash_app (a b : string) :
  no_slash a = true -> no_slash b = true -> no_slash (a +:+ b) = true.
Proof.
  intros Ha Hb. induction a as [|c a IH]; [exact Hb|].
  rewrite append_cons. cbn [no_slash string_forallb] in Ha |- *.
  apply andb_true_iff in Ha as [Hc Ha]. rewrite Hc. apply IH. exact Ha.
Qed.

(** X20. The name of a plugin module: for the file [n.py] of a
    directory, [n] holding no slash, it is the prefix, a dot and [n],
    whatever the directory. *)
Theorem module_name_of_file (plugin_prefix d n : string) :
  no_slash n = true ->
  module_name plugin_prefix (d +:+ "/" +:+ n +:+ ".py")
  = plugin_prefix +:+ "." +:+ n.
Proof.
  intros Hn. unfold module_name.
  rewrite (basename_app d (n +:+ ".py")) by (apply no_slash_app; auto).
  rewrite drop_last3_py. reflexivity.
Qed.

Lemma module_name_of_file_witness :
  module_name "myplugins" ("/etc/slackard/./myplugins" +:+ "/" +:+ "greet" +:+ ".py")
  = "myplugins" +:+ "." +:+ "greet".
Proof.
  apply (module_name_of_file "myplugins" "/etc/slackard/./myplugins" "greet").
  reflexivity.
Defined.

(** X21. A [plugins] entry that ends with a slash names no package: the
    prefix is empty, [_import_plugins] asks for the import of the module
    of empty name first, and raises what that import raises, before any
    plugin is looked for. *)
Theorem import_plugins_trailing_slash (realpath : string -> string)
    (glob : string -> list string) (import_module : importer)
    (cfg : plugin_config) (sys_path : list string) (w w' : world)
    (p : string) (e : exn) :
  plugins cfg = p +:+ "/" ->
  import_module EmptyString w = (w', Raise e) ->
  basename (plugins cfg) = EmptyString
  ∧ _import_plugins realpath glob import_module cfg sys_path w = Raise e.
Proof.
  intros Hp He.
  assert (Hb : basename (plugins cfg) = EmptyString).
  { rewrite Hp. apply (basename_app p EmptyString). reflexivity. }
  split; [exact Hb|].
  assert (Hne : plugins cfg ≠ EmptyString).
  { rewrite Hp. destruct p; discriminate. }
  destruct (get_plugin_path_total realpath cfg Hne) as [path Hpath].
  unfold _import_plugins.
  rewrite (set_import_path_eq _ _ _ _ Hpath), bind_Ok, Hb, He. reflexivity.
Qed.

Lemma import_plugins_trailing_slash_witness :
  basename "./myplugins/" = EmptyString
  ∧ _import_plugins (fun p => p) (fun _ => [])
      (fun name w =>
         if decide (name = EmptyString)
         then (w, Raise (Exn OtherException "Empty module name"))
         else (w, Ok ()))
      (PluginConfig "./myplugins/" "/etc/slackard/config.yaml") []
      (World ex_registry [])
    = Raise (Exn OtherException "Empty module name").
Proof.
  apply (import_plugins_trailing_slash (fun p => p) (fun _ => [])
           _ (PluginConfig "./myplugins/" "/etc/slackard/config.yaml") []
           (World ex_registry []) (World ex_registry []) "./myplugins").
  - reflexivity.
  - reflexivity.
Defined.

(** ** What [_resolve_channels] returns *)

Lemma resolve_loop_Ok (self : bot) (chans acc r : list string) :
  resolve_loop self chans acc = Ok r ->
  (∀ c, c ∈ chans -> is_Some (resolve_one self c))
  ∧ r = acc ++ omap (resolve_one self) chans.
Proof.
  revert acc. induction chans as [|c chans IH]; intros acc H.
  - injection H as <-. split; [intros c Hc; inversion Hc|].
    cbn. rewrite app_nil_r. reflexivity.
  - cbn [resolve_loop] in H.
    assert (Hc : ∃ i, resolve_one self c = Some i
                      ∧ resolve_loop self chans (acc ++ [i]) = Ok r).
    { unfold resolve_one.
      destruct (decide (is_Some (chan_ids self !! c))); [eauto|].
      destruct (dict_get (channels self) c); [eauto|discriminate H]. }
    destruct Hc as (i & Hi & Hr). apply IH in Hr as [Hall ->]. split.
    + intros x Hx. apply elem_of_cons in Hx as [->|Hx]; [eauto|].
      apply Hall. exact Hx.
    + cbn [omap list_omap]. rewrite Hi, <- app_assoc. reflexivity.
Qed.

(** X22. Whatever the state of the bot, what [_resolve_channels] returns
    for a list of identifiers holds, for each identifier, the ID it
    stands for, and nothing else: every element is a known ID or the ID
    of a configured name, and it is there because an identifier of the
    list resolves to it. *)
Theorem resolve_channels_sound (self : bot) (l ids : list string) :
  _resolve_channels self (SelList l) = Ok ids ->
  (∀ c, c ∈ l -> ∃ i, resolve_one self c = Some i ∧ i ∈ ids)
  ∧ (∀ i, i ∈ ids ->
       (∃ c, c ∈ l ∧ resolve_one self c = Some i)
       ∧ (is_Some (chan_ids self !! i) ∨ ∃ n, (n, i) ∈ channels self)).
Proof.
  unfold _resolve_channels. intros H.
  destruct (resolve_loop self l []) as [r|e] eqn:Hr; [|discriminate H].
  rewrite bind_Ok in H. injection H as <-.
  apply resolve_loop_Ok in Hr as [Hall ->]. cbn [app]. split.
  - intros c Hc. destruct (Hall c Hc) as [i Hi]. exists i.
    split; [exact Hi|]. apply elem_of_tuple_of_set.
    apply list_elem_of_omap. eauto.
  - intros i Hi. rewrite elem_of_tuple_of_set in Hi.
    apply list_elem_of_omap in Hi as (c & Hc & Hi). split; [eauto|].
    unfold resolve_one in Hi.
    destruct (decide (is_Some (chan_ids self !! c))) as [Hs|].
    + injection Hi as <-. left. exact Hs.
    + right. exists c. apply dict_get_Some_elem_of. exact Hi.
Qed.

Lemma resolve_channels_sound_witness :
  (∀ c, c ∈ ["random"; "C1"; "random"] ->
        ∃ i, resolve_one ex_bot c = Some i ∧ i ∈ ["C1"; "C2"])
  ∧ (∀ i, i ∈ ["C1"; "C2"] ->
       (∃ c, c ∈ ["random"; "C1"; "random"] ∧ resolve_one ex_bot c = Some i)
       ∧ (is_Some (chan_ids ex_bot !! i) ∨ ∃ n, (n, i) ∈ channels ex_bot)).
Proof.
  apply (resolve_channels_sound ex_bot ["random"; "C1"; "random"]
           ["C1"; "C2"]).
  vm_compute. reflexivity.
Defined.

(** ** One channel: the watermark does not fall behind *)




(** ** A registration, on the example *)

Lemma registration_only_appends_witness :
  let m := msg "300" "slack: ping hello" in
  delivered ex_bot ex_registry m
  `sublist_of`
  delivered ex_bot
    (registered (fst (firehose (Plugin "greet") (World ex_registry [])))) m.
Proof.
  intros m.
  destruct (registration_only_appends literal_compile (PStr "hello")
              (PStr "ping") (Plugin "greet") (World ex_registry []))
    as (_ & _ & H3 & H4).
  apply (H4 ex_bot _ m H3).
Defined.
